(** * NNGrid: the two-level nearest-neighbour grid of the routing engine

    A shallow embedding of [DataStructures/NNGrid.h] and the properties of
    its grid geometry, rasterizer, distance kernel, builder and reader.

    Conventions of the embedding.
    - [int] and [unsigned] variables are integers in [Z]; unsigned
      arithmetic is reduced modulo [2^32] where the source can wrap, an
      unsigned value received by an [int] parameter is reinterpreted in two's
      complement, and [/], [%] on [int] are the truncating [Z.quot], [Z.rem].
    - [double] is IEEE 754 binary64 as specified by the standard library's
      [SpecFloat] (precision 53, [emax] 1024, round to nearest even).
    - [assert], a dereference of [begin()] of an empty container, an index
      outside a vector, a conversion of an unrepresentable [double] and a
      read past the end of the index file all stop the computation: the
      functions return in the [result] monad.
    - [std::sort] and [stxxl::sort] are parameters of the builder.  The
      theorems about every built index ask of them a sorted permutation and
      nothing else; concrete runs use insertion sort.
    - The index file is a list of bytes.  The RAM index file is the dump of
      [ramIndexTable], entry by entry, and the reader starts from the table.
    - Output to [cout], the progress meter, the time stamps and the recorded
      maxima are left out. *)

From Stdlib Require Import ZArith List Lia Bool Permutation Sorted.
From Stdlib Require Import Floats.SpecFloat.
Import ListNotations.

Local Open Scope Z_scope.

(** ** Faults and the [result] monad *)

Inductive fault : Type :=
| AssertionFailed      (* an [assert] of the source does not hold *)
| EmptyDereference     (* [begin()] of an empty container is dereferenced *)
| OutOfRange           (* vector index or numeric conversion out of range *)
| EndOfFile.           (* a read runs past the end of the index file *)

Inductive result (A : Type) : Type :=
| Ok (a : A)
| Fault (f : fault).

Arguments Ok {A} a.
Arguments Fault {A} f.

Definition bind {A B : Type} (c : result A) (k : A -> result B) : result B :=
  match c with
  | Ok a => k a
  | Fault f => Fault f
  end.

Notation "x <- c ;; k" := (bind c (fun x => k))
  (at level 61, c at next level, right associativity).
Notation "' pat <- c ;; k" := (bind c (fun x => match x with pat => k end))
  (at level 61, pat pattern, c at next level, right associativity).
Notation "c ;;; k" := (bind c (fun _ => k))
  (at level 61, right associativity).

Definition assert (b : bool) : result unit :=
  if b then Ok tt else Fault AssertionFailed.

(** ** Machine integers *)

Definition UINT_MAX : Z := 4294967295.
Definition INT_MAX : Z := 2147483647.

(** Reduction of an integer to [unsigned]. *)
Definition to_unsigned (z : Z) : Z := z mod 4294967296.

(** Reinterpretation of an integer as [int] (two's complement). *)
Definition to_int (z : Z) : Z := (z + 2147483648) mod 4294967296 - 2147483648.

(** ** Doubles *)

Module Double.

Definition prec : Z := 53.
Definition emax : Z := 1024.

Definition double : Type := spec_float.

(** Conversion of an integer; exact below [2^53] in magnitude. *)
Definition of_int (z : Z) : double := binary_normalize prec emax z 0 false.

Definition add : double -> double -> double := SFadd prec emax.
Definition sub : double -> double -> double := SFsub prec emax.
Definition mul : double -> double -> double := SFmul prec emax.
Definition div : double -> double -> double := SFdiv prec emax.

Definition ltb : double -> double -> bool := SFltb.
Definition leb : double -> double -> bool := SFleb.
Definition eqb : double -> double -> bool := SFeqb.

(** [numeric_limits<double>::max()] *)
Definition max : double := SFmax_float prec emax.

(** Truncation toward zero, undefined on infinities and NaN. *)
Definition trunc (d : double) : option Z :=
  match d with
  | S754_zero _ => Some 0
  | S754_finite s m e =>
      Some (cond_Zopp s (if 0 <=? e then Zpos m * 2 ^ e
                         else Zpos m / 2 ^ (- e)))
  | _ => None
  end.

(** [double] to [unsigned]: defined when the truncated value fits. *)
Definition to_unsigned (d : double) : result Z :=
  match trunc d with
  | Some z => if (0 <=? z) && (z <=? UINT_MAX) then Ok z
              else Fault OutOfRange
  | None => Fault OutOfRange
  end.

(** [double] to [int]: defined when the truncated value fits. *)
Definition to_int (d : double) : result Z :=
  match trunc d with
  | Some z => if (- INT_MAX - 1 <=? z) && (z <=? INT_MAX) then Ok z
              else Fault OutOfRange
  | None => Fault OutOfRange
  end.

End Double.

(** ** Grid geometry *)

Definition getFileIndexForLatLon (lt ln : Z) : result Z :=
  let lat := Double.div (Double.of_int lt) (Double.of_int 100000) in
  let lon := Double.div (Double.of_int ln) (Double.of_int 100000) in
  let x := Double.div (Double.add lon (Double.of_int 180)) (Double.of_int 360) in
  let y := Double.div (Double.add lat (Double.of_int 90)) (Double.of_int 180) in
  assert (Double.leb x (Double.of_int 1) && Double.leb (Double.of_int 0) x) ;;;
  assert (Double.leb y (Double.of_int 1) && Double.leb (Double.of_int 0) y) ;;;
  line <- Double.to_unsigned (Double.mul (Double.of_int 1073741824) y) ;;
  let line := to_unsigned (line - line mod 32768) in
  assert (line mod 32768 =? 0) ;;;
  column <- Double.to_unsigned (Double.mul (Double.of_int 32768) x) ;;
  let fileIndex := to_unsigned (line + column) in
  Ok fileIndex.

(** The parameter is an [int]; callers holding an [unsigned] pass
    [to_int] of it. *)
Definition getRAMIndexFromFileIndex (fileIndex : Z) : result Z :=
  let fileLine := to_unsigned (Z.quot fileIndex 32768) in
  let fileLine := fileLine / 32 in
  let fileLine := to_unsigned (fileLine * 1024) in
  let fileColumn := to_unsigned (Z.rem fileIndex 32768) in
  let fileColumn := fileColumn / 32 in
  let ramIndex := to_unsigned (fileLine + fileColumn) in
  assert (ramIndex <? 1024 * 1024) ;;;
  Ok ramIndex.

Definition signum (x : Z) : Z :=
  if 0 <? x then 1 else if x <? 0 then -1 else 0.

(** ** Coordinates, edges and builder entries

    [_Coordinate], [_Edge] (ExtractorStructs.h), [GridEdgeData] (GridEdge.h)
    and [PhantomNodes] (PhantomNodes.h) with the fields NNGrid.h uses. *)

Record _Coordinate : Type := mkCoordinate { lat : Z; lon : Z }.

Record _Edge : Type := mkEdge {
  start : Z;
  target : Z;
  startCoord : _Coordinate;
  targetCoord : _Coordinate
}.

Record GridEdgeData : Type := mkGridEdgeData {
  edge : _Edge;
  fileIndex : Z;
  ramIndex : Z
}.

Record PhantomNodes : Type := mkPhantomNodes {
  startNode1 : Z;
  startNode2 : Z;
  startRatio : Double.double;
  startCoord' : _Coordinate;
  targetNode1 : Z;
  targetNode2 : Z;
  targetRatio : Double.double;
  targetCoord' : _Coordinate
}.

(** ** Rasterizer *)

(** The block [{ int fileIndex = (y-1)*32768 + x; ... push_back }] that
    [bresenham] runs for the first cell and after every step.  The pair of
    [int]s is stored as a pair of [unsigned]s. *)
Definition push_cell (x y : Z) (indexList : list (Z * Z)) : result (list (Z * Z)) :=
  let fileIndex := (y - 1) * 32768 + x in
  ramIndex <- getRAMIndexFromFileIndex fileIndex ;;
  let ramIndex := to_int ramIndex in
  Ok (indexList ++ [(to_unsigned fileIndex, to_unsigned ramIndex)]).

(** The step parameters chosen by [if (dx>dy) ... else ...]. *)
Record steps : Type := mkSteps {
  pdx : Z; pdy : Z;
  ddx : Z; ddy : Z;
  es : Z; el : Z
}.

Definition bresenham_branch (dx dy incx incy : Z) : steps :=
  if dx >? dy then
    {| pdx := incx; pdy := 0; ddx := incx; ddy := incy; es := dy; el := dx |}
  else
    {| pdx := 0; pdy := incy; ddx := incx; ddy := incy; es := dx; el := dy |}.

(** The body of [for(t=0; t<el; ++t)], run [n] more times. *)
Fixpoint bresenham_loop (n : nat) (s : steps) (x y err : Z)
    (indexList : list (Z * Z)) : result (list (Z * Z)) :=
  match n with
  | O => Ok indexList
  | S n' =>
      let err := err - es s in
      let '(err, x, y) :=
        if err <? 0 then (err + el s, x + ddx s, y + ddy s)
        else (err, x + pdx s, y + pdy s) in
      indexList <- push_cell x y indexList ;;
      bresenham_loop n' s x y err indexList
  end.

Definition bresenham (xstart ystart xend yend : Z)
    (indexList : list (Z * Z)) : result (list (Z * Z)) :=
  let dx := xend - xstart in
  let dy := yend - ystart in
  let incx := signum dx in
  let incy := signum dy in
  let dx := if dx <? 0 then - dx else dx in
  let dy := if dy <? 0 then - dy else dy in
  let s := bresenham_branch dx dy incx incy in
  let x := xstart in
  let y := ystart in
  let err := Z.quot (el s) 2 in
  indexList <- push_cell x y indexList ;;
  bresenham_loop (Z.to_nat (el s)) s x y err indexList.

Definition getListOfIndexesForEdgeAndGridSize (start target : _Coordinate)
    (indexList : list (Z * Z)) : result (list (Z * Z)) :=
  let lat1 := Double.div (Double.of_int (lat start)) (Double.of_int 100000) in
  let lon1 := Double.div (Double.of_int (lon start)) (Double.of_int 100000) in
  let x1 := Double.div (Double.add lon1 (Double.of_int 180)) (Double.of_int 360) in
  let y1 := Double.div (Double.add lat1 (Double.of_int 90)) (Double.of_int 180) in
  let lat2 := Double.div (Double.of_int (lat target)) (Double.of_int 100000) in
  let lon2 := Double.div (Double.of_int (lon target)) (Double.of_int 100000) in
  let x2 := Double.div (Double.add lon2 (Double.of_int 180)) (Double.of_int 360) in
  let y2 := Double.div (Double.add lat2 (Double.of_int 90)) (Double.of_int 180) in
  xstart <- Double.to_int (Double.mul x1 (Double.of_int 32768)) ;;
  ystart <- Double.to_int (Double.mul y1 (Double.of_int 32768)) ;;
  xend <- Double.to_int (Double.mul x2 (Double.of_int 32768)) ;;
  yend <- Double.to_int (Double.mul y2 (Double.of_int 32768)) ;;
  bresenham xstart ystart xend yend indexList.

(** ** Distance kernel *)

(** [nearest] and [*r] are the out-parameters; the result is the returned
    squared distance with their final values.  [*r] is written only when
    [lengthSquared != 0]; [percentage] is a local of the source. *)
Definition ComputeDistance (inputPoint source target nearest : _Coordinate)
    (r : Double.double) : result (Double.double * _Coordinate * Double.double) :=
  let vY := Double.sub (Double.of_int (lon target)) (Double.of_int (lon source)) in
  let vX := Double.sub (Double.of_int (lat target)) (Double.of_int (lat source)) in
  let wY := Double.sub (Double.of_int (lon inputPoint)) (Double.of_int (lon source)) in
  let wX := Double.sub (Double.of_int (lat inputPoint)) (Double.of_int (lat source)) in
  let lengthSquared := Double.add (Double.mul vX vX) (Double.mul vY vY) in
  let r :=
    if negb (Double.eqb lengthSquared (Double.of_int 0))
    then Double.div (Double.add (Double.mul vX wX) (Double.mul vY wY)) lengthSquared
    else r in
  let percentage := r in
  if Double.leb r (Double.of_int 0) then
    let nearest := {| lat := lat source; lon := lon source |} in
    let percentage := Double.of_int 0 in
    Ok (Double.add (Double.mul wY wY) (Double.mul wX wX), nearest, r)
  else if Double.leb (Double.of_int 1) r then
    let nearest := {| lat := lat target; lon := lon target |} in
    let percentage := Double.of_int 1 in
    let dY := Double.sub (Double.of_int (lon inputPoint)) (Double.of_int (lon target)) in
    let dX := Double.sub (Double.of_int (lat inputPoint)) (Double.of_int (lat target)) in
    Ok (Double.add (Double.mul dY dY) (Double.mul dX dX), nearest, r)
  else
    nlat <- Double.to_int (Double.add (Double.of_int (lat source)) (Double.mul r vX)) ;;
    nlon <- Double.to_int (Double.add (Double.of_int (lon source)) (Double.mul r vY)) ;;
    let nearest := {| lat := nlat; lon := nlon |} in
    let dX := Double.sub (Double.add (Double.of_int (lat source)) (Double.mul r vX))
                         (Double.of_int (lat inputPoint)) in
    let dY := Double.sub (Double.add (Double.of_int (lon source)) (Double.mul r vY))
                         (Double.of_int (lon inputPoint)) in
    Ok (Double.add (Double.mul dY dY) (Double.mul dX dX), nearest, r).

(** ** Byte encoding of the index file

    The file is a list of bytes.  [unsigned] and [int] fields are the four
    bytes of their object representation, least significant first. *)

Definition encode_unsigned (v : Z) : list Z :=
  [v mod 256; (v / 256) mod 256; (v / 65536) mod 256; (v / 16777216) mod 256].

Definition encode_int (v : Z) : list Z := encode_unsigned (to_unsigned v).

Definition decode_unsigned (b : list Z) : Z :=
  match b with
  | [b0; b1; b2; b3] => b0 + 256 * b1 + 65536 * b2 + 16777216 * b3
  | _ => 0
  end.

(** [seekg(pos)] followed by [read] of four bytes.  A read that runs past
    the end of the file leaves the stream in its failed state, in which
    every later [seekg] and [read] on the handle does nothing; the model
    stops with [EndOfFile] there, which also stands for the [eof()] exit of
    the record loop. *)
Definition read_unsigned (file : list Z) (pos : Z) : result Z :=
  let b := firstn 4 (skipn (Z.to_nat pos) file) in
  if (length b =? 4)%nat then Ok (decode_unsigned b) else Fault EndOfFile.

Definition read_int (file : list Z) (pos : Z) : result Z :=
  v <- read_unsigned file pos ;;
  Ok (to_int v).

(** ** Containers *)

Definition front {A : Type} (v : list A) : result A :=
  match v with
  | [] => Fault EmptyDereference
  | x :: _ => Ok x
  end.

(** [v[i]] and [v[i] = x] on a vector. *)
Definition vector_get (v : list Z) (i : Z) : result Z :=
  if (0 <=? i) && (i <? Z.of_nat (length v))
  then Ok (nth (Z.to_nat i) v 0) else Fault OutOfRange.

Fixpoint set_nth (n : nat) (x : Z) (v : list Z) : list Z :=
  match v, n with
  | [], _ => []
  | _ :: v', O => x :: v'
  | y :: v', S n' => y :: set_nth n' x v'
  end.

Definition vector_set (v : list Z) (i x : Z) : result (list Z) :=
  if (0 <=? i) && (i <? Z.of_nat (length v))
  then Ok (set_nth (Z.to_nat i) x v) else Fault OutOfRange.

(** [ramIndexTable]: a vector of [1024*1024] entries, held as the function
    from its indices to its elements. *)
Definition ram_table : Type := Z -> Z.

Definition empty_ram_table : ram_table := fun _ => UINT_MAX.

Definition ram_table_get (t : ram_table) (i : Z) : result Z :=
  if (0 <=? i) && (i <? 1024 * 1024) then Ok (t i) else Fault OutOfRange.

Definition ram_table_set (t : ram_table) (i x : Z) : result ram_table :=
  if (0 <=? i) && (i <? 1024 * 1024)
  then Ok (fun j => if j =? i then x else t j) else Fault OutOfRange.

(** The integers [0 .. n-1] of a counting [for] loop. *)
Definition range (n : nat) : list Z := map Z.of_nat (seq 0 n).

(** [cellMap]: file index to child slot of the RAM cell, filled by the
    double loop over [i], [j]; [insert] keeps the first value of a key. *)
Definition cell_map : Type := list (Z * Z).

Definition cellMap_find (m : cell_map) (k : Z) : option Z :=
  option_map snd (find (fun p => fst p =? k) m).

Definition build_cellMap (ramIndex : Z) : cell_map :=
  let lineBase := ramIndex / 1024 in
  let lineBase := to_unsigned (lineBase * 32 * 32768) in
  let columnBase := ramIndex mod 1024 in
  let columnBase := to_unsigned (columnBase * 32) in
  flat_map (fun i =>
    map (fun j =>
      let fileIndex := to_unsigned (lineBase + i * 32768 + columnBase + j) in
      let cellIndex := i * 32 + j in
      (fileIndex, cellIndex)) (range 32)) (range 32).

(** ** Builder *)

(** Modelled from the spec: the comparators and the equality of
    [GridEdgeData], declared in GridEdge.h, which is not among the sources.
    The spec sorts by [ramCell] ascending, then by [fileCell] ascending, and
    deduplicates on the same start, target and fileCell. *)
Definition CompareGridEdgeDataByRamIndex (a b : GridEdgeData) : bool :=
  ramIndex a <? ramIndex b.

Definition CompareGridEdgeDataByFileIndex (a b : GridEdgeData) : bool :=
  fileIndex a <? fileIndex b.

Definition GridEdgeData_eqb (a b : GridEdgeData) : bool :=
  (start (edge a) =? start (edge b))
  && (target (edge a) =? target (edge b))
  && (fileIndex a =? fileIndex b).

(** [std::unique]: of every run of equal elements the first is kept. *)
Fixpoint unique_from (kept : GridEdgeData) (v : list GridEdgeData) : list GridEdgeData :=
  match v with
  | [] => [kept]
  | x :: v' =>
      if GridEdgeData_eqb kept x then unique_from kept v'
      else kept :: unique_from x v'
  end.

Definition unique (v : list GridEdgeData) : list GridEdgeData :=
  match v with
  | [] => []
  | x :: v' => unique_from x v'
  end.

(** The loops [for(i = 0; i < v.size()-1; i++) assert(p(v[i], v[i+1]))]. *)
Fixpoint assert_adjacent (p : GridEdgeData -> GridEdgeData -> bool)
    (v : list GridEdgeData) : result unit :=
  match v with
  | a :: (b :: _) as v' => assert (p a b) ;;; assert_adjacent p v'
  | _ => Ok tt
  end.

Definition AddEdge (entries : list GridEdgeData) (e : _Edge)
    (s t : _Coordinate) : result (list GridEdgeData) :=
  let e := {| start := start e; target := target e;
              startCoord := s; targetCoord := t |} in
  indexList <- getListOfIndexesForEdgeAndGridSize s t [] ;;
  Ok (entries ++ map (fun p => mkGridEdgeData e (fst p) (snd p)) indexList).

(** The 24 bytes of one edge record. *)
Definition edge_record (e : _Edge) : list Z :=
  encode_unsigned (start e) ++ encode_unsigned (target e)
  ++ encode_int (lat (startCoord e)) ++ encode_int (lon (startCoord e))
  ++ encode_int (lat (targetCoord e)) ++ encode_int (lon (targetCoord e)).

(** [tmpBuffer] is held as its written prefix: the bytes are stored at
    [index], [index+1], ... and [counter] of them are reported. *)
Definition FlushEntriesWithSameFileIndexToBuffer
    (vectorWithSameFileIndex : list GridEdgeData) (tmpBuffer : list Z)
    (index : Z) : result (Z * list Z) :=
  _ <- front vectorWithSameFileIndex ;;
  assert_adjacent (fun a b => (fileIndex a =? fileIndex b)) vectorWithSameFileIndex ;;;
  assert_adjacent (fun a b => (ramIndex a =? ramIndex b)) vectorWithSameFileIndex ;;;
  let bytes :=
    flat_map (fun et => edge_record (edge et)) vectorWithSameFileIndex
    ++ encode_unsigned UINT_MAX in
  let counter := to_unsigned (Z.of_nat (length bytes)) in
  Ok (counter, firstn (Z.to_nat index) tmpBuffer ++ bytes).

(** The state of the loop of [FillCell] over the deduplicated entries. *)
Record fill_state : Type := mkFillState {
  entriesWithSameFileIndex : list GridEdgeData;
  cellIndex : list Z;
  tmpBuffer : list Z;
  indexIntoTmpBuffer : Z
}.

(** The block that notes the start of a file bucket in [cellIndex] and
    flushes it; [FillCell] runs it inside the loop and once after it. *)
Definition flush_bucket (cellMap : cell_map) (fileOffset : Z)
    (st : fill_state) : result fill_state :=
  first <- front (entriesWithSameFileIndex st) ;;
  let localFileIndex := to_int (fileIndex first) in
  localCellIndex <-
    match cellMap_find cellMap (to_unsigned localFileIndex) with
    | Some c => Ok c
    | None => Fault AssertionFailed
    end ;;
  _ <- getRAMIndexFromFileIndex localFileIndex ;;
  cellIndex <- vector_set (cellIndex st) localCellIndex
                 (to_unsigned (indexIntoTmpBuffer st + fileOffset)) ;;
  '(counter, tmpBuffer) <-
    FlushEntriesWithSameFileIndexToBuffer (entriesWithSameFileIndex st)
      (tmpBuffer st) (indexIntoTmpBuffer st) ;;
  Ok {| entriesWithSameFileIndex := [];
        cellIndex := cellIndex;
        tmpBuffer := tmpBuffer;
        indexIntoTmpBuffer := to_unsigned (indexIntoTmpBuffer st + counter) |}.

Fixpoint FillCell_loop (cellMap : cell_map) (fileOffset : Z)
    (its : list GridEdgeData) (lastFileIndex : Z) (st : fill_state)
    : result fill_state :=
  match its with
  | [] => Ok st
  | it :: its' =>
      assert (match cellMap_find cellMap (fileIndex it) with
              | Some _ => true | None => false end) ;;;
      st <- (if negb (fileIndex it =? lastFileIndex)
             then flush_bucket cellMap fileOffset st else Ok st) ;;
      let st := {| entriesWithSameFileIndex := entriesWithSameFileIndex st ++ [it];
                   cellIndex := cellIndex st;
                   tmpBuffer := tmpBuffer st;
                   indexIntoTmpBuffer := indexIntoTmpBuffer st |} in
      FillCell_loop cellMap fileOffset its' (fileIndex it) st
  end.

Section Builder.

(** [std::sort] and [stxxl::sort] with a comparator: library code, taken
    as a parameter.  The order of equivalent elements is theirs. *)
Variable std_sort :
  (GridEdgeData -> GridEdgeData -> bool) -> list GridEdgeData -> list GridEdgeData.
Variable stxxl_sort :
  (GridEdgeData -> GridEdgeData -> bool) -> list GridEdgeData -> list GridEdgeData.

(** Returns [numberOfWrittenBytes] and the bytes appended to
    [indexOutFile]. *)
Definition FillCell (entriesWithSameRAMIndex : list GridEdgeData)
    (fileOffset : Z) : result (Z * list Z) :=
  first <- front entriesWithSameRAMIndex ;;
  let cellMap := build_cellMap (ramIndex first) in
  assert_adjacent (fun a b => ramIndex a =? ramIndex b)
    entriesWithSameRAMIndex ;;;
  let entriesWithSameRAMIndex :=
    std_sort CompareGridEdgeDataByFileIndex entriesWithSameRAMIndex in
  let uniqueRange := unique entriesWithSameRAMIndex in
  first <- front entriesWithSameRAMIndex ;;
  st <- FillCell_loop cellMap fileOffset uniqueRange (fileIndex first)
          {| entriesWithSameFileIndex := [];
             cellIndex := repeat UINT_MAX (32 * 32);
             tmpBuffer := [];
             indexIntoTmpBuffer := 0 |} ;;
  first <- front (entriesWithSameFileIndex st) ;;
  assert (match cellMap_find cellMap (fileIndex first) with
          | Some _ => true | None => false end) ;;;
  st <- flush_bucket cellMap fileOffset st ;;
  assert (Nat.eqb (length (entriesWithSameFileIndex st)) 0) ;;;
  let directory := flat_map encode_unsigned (cellIndex st) in
  let payload := firstn (Z.to_nat (indexIntoTmpBuffer st)) (tmpBuffer st) in
  let numberOfWrittenBytes :=
    to_unsigned (Z.of_nat (length directory) + Z.of_nat (length payload)) in
  Ok (numberOfWrittenBytes, directory ++ payload).

(** The state of the loop of [ConstructGrid] over the sorted entries. *)
Record construct_state : Type := mkConstructState {
  entriesInFileWithRAMSameIndex : list GridEdgeData;
  indexInRamTable : Z;
  lastPositionInIndexFile : Z;
  numberOfUsedCells : Z;
  indexOutFile : list Z;
  ramIndexTable : ram_table
}.

Fixpoint ConstructGrid_loop (vts : list GridEdgeData) (st : construct_state)
    : result construct_state :=
  match vts with
  | [] => Ok st
  | vt :: vts' =>
      st <- (if negb (ramIndex vt =? indexInRamTable st) then
               '(numberOfBytesInCell, bytes) <-
                 FillCell (entriesInFileWithRAMSameIndex st)
                          (lastPositionInIndexFile st) ;;
               table <- ram_table_set (ramIndexTable st) (indexInRamTable st)
                          (lastPositionInIndexFile st) ;;
               Ok {| entriesInFileWithRAMSameIndex := [];
                     indexInRamTable := ramIndex vt;
                     lastPositionInIndexFile :=
                       to_unsigned (lastPositionInIndexFile st + numberOfBytesInCell);
                     numberOfUsedCells := to_unsigned (numberOfUsedCells st + 1);
                     indexOutFile := indexOutFile st ++ bytes;
                     ramIndexTable := table |}
             else Ok st) ;;
      ConstructGrid_loop vts'
        {| entriesInFileWithRAMSameIndex := entriesInFileWithRAMSameIndex st ++ [vt];
           indexInRamTable := indexInRamTable st;
           lastPositionInIndexFile := lastPositionInIndexFile st;
           numberOfUsedCells := numberOfUsedCells st;
           indexOutFile := indexOutFile st;
           ramIndexTable := ramIndexTable st |}
  end.

(** The loop that decrements [numberOfUsedCells] for every used entry of
    [ramIndexTable]. *)
Definition count_down_used (t : ram_table) (numberOfUsedCells : Z) : Z :=
  snd (Z.iter (1024 * 1024)
         (fun '(i, n) =>
            (i + 1, if negb (t i =? UINT_MAX) then to_unsigned (n - 1) else n))
         (0, numberOfUsedCells)).

(** [ConstructGrid] on the builder's [entries] and its initial
    [ramIndexTable]; the result is the table, whose dump is the RAM index
    file, and the contents of the index file. *)
Definition ConstructGrid (entries : list GridEdgeData)
    : result (ram_table * list Z) :=
  let entries := stxxl_sort CompareGridEdgeDataByRamIndex entries in
  first <- front entries ;;
  st <- ConstructGrid_loop entries
          {| entriesInFileWithRAMSameIndex := [];
             indexInRamTable := ramIndex first;
             lastPositionInIndexFile := 0;
             numberOfUsedCells := 0;
             indexOutFile := [];
             ramIndexTable := empty_ram_table |} ;;
  '(numberOfBytesInCell, bytes) <-
    FillCell (entriesInFileWithRAMSameIndex st) (lastPositionInIndexFile st) ;;
  table <- ram_table_set (ramIndexTable st) (indexInRamTable st)
             (lastPositionInIndexFile st) ;;
  let numberOfUsedCells := to_unsigned (numberOfUsedCells st + 1) in
  let numberOfUsedCells := count_down_used table numberOfUsedCells in
  assert (numberOfUsedCells =? 0) ;;;
  Ok (table, indexOutFile st ++ bytes).

End Builder.

(** ** Reader *)

(** The reader after [OpenIndexFiles]: the RAM index table and the
    contents of the index file behind [indexInFile]. *)
Record NNGrid : Type := mkNNGrid {
  ramIndexTable_of : ram_table;
  indexInFile : list Z
}.

(** The 1024 reads of the child directory of a super-bucket. *)
Fixpoint read_directory (file : list Z) (pos : Z) (n : nat) : result (list Z) :=
  match n with
  | O => Ok []
  | S n' =>
      v <- read_unsigned file pos ;;
      rest <- read_directory file (pos + 4) n' ;;
      Ok (v :: rest)
  end.

(** The [do { ... } while(true)] loop over the edge records of a file
    bucket.  Every round consumes four bytes or stops, so [fuel] above the
    length of the file is never used up. *)
Fixpoint read_bucket (fuel : nat) (file : list Z) (pos : Z)
    (res : list _Edge) : result (list _Edge) :=
  match fuel with
  | O => Fault EndOfFile
  | S fuel' =>
      start <- read_unsigned file pos ;;
      if start =? UINT_MAX then Ok res else
      target <- read_unsigned file (pos + 4) ;;
      slat <- read_int file (pos + 8) ;;
      slon <- read_int file (pos + 12) ;;
      tlat <- read_int file (pos + 16) ;;
      tlon <- read_int file (pos + 20) ;;
      let e := mkEdge start target (mkCoordinate slat slon)
                 (mkCoordinate tlat tlon) in
      read_bucket fuel' file (pos + 24) (res ++ [e])
  end.

Definition GetContentsOfFileBucket (g : NNGrid) (fileIndex : Z)
    (res : list _Edge) : result (list _Edge) :=
  ramIndex <- getRAMIndexFromFileIndex (to_int fileIndex) ;;
  startIndexInFile <- ram_table_get (ramIndexTable_of g) ramIndex ;;
  if startIndexInFile =? UINT_MAX then Ok res else
  let cellMap := build_cellMap ramIndex in
  cellIndex <- read_directory (indexInFile g) startIndexInFile (32 * 32) ;;
  slot <- match cellMap_find cellMap fileIndex with
          | Some c => Ok c
          | None => Fault AssertionFailed
          end ;;
  entry <- vector_get cellIndex slot ;;
  if entry =? UINT_MAX then Ok res else
  let position := to_unsigned (entry + 32 * 32 * 4) in
  read_bucket (S (length (indexInFile g))) (indexInFile g) position res.

(** The double loop over [j] and [i] that gathers the candidates of the
    3x3 neighbourhood. *)
Fixpoint collect_buckets (g : NNGrid) (cells : list Z) (candidates : list _Edge)
    : result (list _Edge) :=
  match cells with
  | [] => Ok candidates
  | c :: cells' =>
      candidates <- GetContentsOfFileBucket g c candidates ;;
      collect_buckets g cells' candidates
  end.

Definition neighbourhood (fileIndex : Z) : list Z :=
  flat_map (fun j => map (fun i => to_unsigned (fileIndex + i + j)) [-1; 0; 1])
    [-32768; 0; 32768].

(** The scan of [FindNearestPointOnEdge] over the candidates. *)
Fixpoint nearest_scan (inputCoordinate : _Coordinate) (candidates : list _Edge)
    (nearest tmp : _Coordinate) (dist : Double.double) : result _Coordinate :=
  match candidates with
  | [] => Ok nearest
  | it :: candidates' =>
      let r := Double.of_int 0 in
      '(tmpDist, tmp, r) <-
        ComputeDistance inputCoordinate (startCoord it) (targetCoord it) tmp r ;;
      if Double.ltb tmpDist dist
      then nearest_scan inputCoordinate candidates' tmp tmp tmpDist
      else nearest_scan inputCoordinate candidates' nearest tmp dist
  end.

(** [tmp] is default-constructed; its initial value is never read. *)
Definition FindNearestPointOnEdge (g : NNGrid) (inputCoordinate : _Coordinate)
    : result _Coordinate :=
  fileIndex <- getFileIndexForLatLon (lat inputCoordinate) (lon inputCoordinate) ;;
  candidates <- collect_buckets g (neighbourhood fileIndex) [] ;;
  let nearest := mkCoordinate INT_MAX INT_MAX in
  let tmp := mkCoordinate 0 0 in
  nearest_scan inputCoordinate candidates nearest tmp Double.max.

(** The two scans of [FindRoutingStarts]; [tmp] is shared by both. *)
Fixpoint start_scan (startCoord0 : _Coordinate) (candidates : list _Edge)
    (routingStarts : PhantomNodes) (tmp : _Coordinate) (dist : Double.double)
    : result (PhantomNodes * _Coordinate) :=
  match candidates with
  | [] => Ok (routingStarts, tmp)
  | it :: candidates' =>
      let r := Double.of_int 0 in
      '(tmpDist, tmp, r) <-
        ComputeDistance startCoord0 (startCoord it) (targetCoord it) tmp r ;;
      if Double.ltb tmpDist dist
      then start_scan startCoord0 candidates'
             {| startNode1 := start it;
                startNode2 := target it;
                startRatio := r;
                startCoord' := mkCoordinate (lat tmp) (lon tmp);
                targetNode1 := targetNode1 routingStarts;
                targetNode2 := targetNode2 routingStarts;
                targetRatio := targetRatio routingStarts;
                targetCoord' := targetCoord' routingStarts |} tmp tmpDist
      else start_scan startCoord0 candidates' routingStarts tmp dist
  end.

Fixpoint target_scan (targetCoord0 : _Coordinate) (candidates : list _Edge)
    (routingStarts : PhantomNodes) (tmp : _Coordinate) (dist : Double.double)
    : result (PhantomNodes * _Coordinate) :=
  match candidates with
  | [] => Ok (routingStarts, tmp)
  | it :: candidates' =>
      let r := Double.of_int 0 in
      '(tmpDist, tmp, r) <-
        ComputeDistance targetCoord0 (startCoord it) (targetCoord it) tmp r ;;
      if Double.ltb tmpDist dist
      then target_scan targetCoord0 candidates'
             {| startNode1 := startNode1 routingStarts;
                startNode2 := startNode2 routingStarts;
                startRatio := startRatio routingStarts;
                startCoord' := startCoord' routingStarts;
                targetNode1 := start it;
                targetNode2 := target it;
                targetRatio := r;
                targetCoord' := mkCoordinate (lat tmp) (lon tmp) |} tmp tmpDist
      else target_scan targetCoord0 candidates' routingStarts tmp dist
  end.

(** The returned [bool] with the final [*routingStarts]. *)
Definition FindRoutingStarts (g : NNGrid) (startCoord0 targetCoord0 : _Coordinate)
    (routingStarts : PhantomNodes) : result (bool * PhantomNodes) :=
  fileIndex <- getFileIndexForLatLon (lat startCoord0) (lon startCoord0) ;;
  candidates <- collect_buckets g (neighbourhood fileIndex) [] ;;
  let tmp := mkCoordinate 0 0 in
  '(routingStarts, tmp) <-
    start_scan startCoord0 candidates routingStarts tmp Double.max ;;
  fileIndex <- getFileIndexForLatLon (lat targetCoord0) (lon targetCoord0) ;;
  candidates <- collect_buckets g (neighbourhood fileIndex) [] ;;
  '(routingStarts, tmp) <-
    target_scan targetCoord0 candidates routingStarts tmp Double.max ;;
  Ok (true, routingStarts).

(** ** A sort for concrete runs

    Insertion sort, which keeps equivalent elements in their input order, as
    [std::sort] of libstdc++ does on ranges of at most 16 elements. *)

Fixpoint insert_sorted (comp : GridEdgeData -> GridEdgeData -> bool)
    (x : GridEdgeData) (v : list GridEdgeData) : list GridEdgeData :=
  match v with
  | [] => [x]
  | y :: v' => if comp y x then y :: insert_sorted comp x v' else x :: v
  end.

Definition insertion_sort (comp : GridEdgeData -> GridEdgeData -> bool)
    (v : list GridEdgeData) : list GridEdgeData :=
  fold_right (insert_sorted comp) [] v.

(** ** Values for concrete runs *)

(** An index without any super-bucket. *)
Definition empty_grid : NNGrid :=
  {| ramIndexTable_of := empty_ram_table; indexInFile := [] |}.

Definition origin : _Coordinate := mkCoordinate 0 0.

Definition blank_phantom : PhantomNodes :=
  mkPhantomNodes 0 0 (Double.of_int 0) origin 0 0 (Double.of_int 0) origin.

(** ** Auxiliary notions of the proofs *)

(** The cells [(x, y)] that the loop of [bresenham] reaches, step by step,
    without the file and RAM indices it pushes for them. *)
Fixpoint bresenham_walk (n : nat) (s : steps) (x y err : Z) : list (Z * Z) :=
  match n with
  | O => []
  | S n' =>
      let err := err - es s in
      let '(err, x, y) :=
        if err <? 0 then (err + el s, x + ddx s, y + ddy s)
        else (err, x + pdx s, y + pdy s) in
      (x, y) :: bresenham_walk n' s x y err
  end.

(** The file index that [push_cell] stores for the cell [(x, y)]. *)
Definition cell_index (p : Z * Z) : Z :=
  to_unsigned ((snd p - 1) * 32768 + fst p).

(** Three edge insertions into one file cell: edge 11-12, edge 13-14 and
    edge 11-12 again. *)
Definition edge_A : _Edge := mkEdge 11 12 origin origin.
Definition edge_B : _Edge := mkEdge 13 14 origin origin.

Definition add_edges (edges : list _Edge) : result (list GridEdgeData) :=
  fold_left
    (fun entries e =>
       entries <- entries ;;
       AddEdge entries e (mkCoordinate 0 0) (mkCoordinate 1 1))
    edges (Ok []).

(** The reader on the index that [ConstructGrid] writes for [entries]. *)
Definition built_grid (entries : list GridEdgeData) : result NNGrid :=
  '(table, file) <- ConstructGrid insertion_sort insertion_sort entries ;;
  Ok (mkNNGrid table file).

(** The file holds [bytes] at the absolute offset [pos]. *)
Definition at_offset (file : list Z) (pos : Z) (bytes : list Z) : Prop :=
  exists pre post, file = pre ++ bytes ++ post /\ Z.of_nat (length pre) = pos.
















(** * Properties *)

(** The proofs unfold these by name only. *)
Arguments to_unsigned : simpl never.
Arguments to_int : simpl never.
Arguments build_cellMap : simpl never.
Arguments read_directory : simpl never.
Arguments read_unsigned : simpl never.
Arguments getRAMIndexFromFileIndex : simpl never.
Arguments getFileIndexForLatLon : simpl never.
Arguments ComputeDistance : simpl never.

(** ** The [result] monad *)

Lemma bind_Ok_inv {A B : Type} (c : result A) (k : A -> result B) (b : B) :
  bind c k = Ok b -> exists a, c = Ok a /\ k a = Ok b.
Proof.
  destruct c as [a | f]; simpl; intros H.
  - exists a. split; [reflexivity | exact H].
  - discriminate H.
Qed.



Lemma assert_Ok_inv (b : bool) (u : unit) : assert b = Ok u -> b = true.
Proof. destruct b; simpl; [reflexivity | discriminate]. Qed.

(** Splits a hypothesis [x <- c ;; k = Ok b] into its two runs. *)
Tactic Notation "bind_inv" hyp(H) "as" simple_intropattern(a) ident(Ha) :=
  apply bind_Ok_inv in H; destruct H as [a [Ha H]].

(** ** Reader: empty neighbourhoods *)

Lemma read_bucket_acc (fuel : nat) (file : list Z) :
  forall (pos : Z) (acc : list _Edge),
    read_bucket fuel file pos acc =
    (l <- read_bucket fuel file pos [] ;; Ok (acc ++ l)).
Proof.
  induction fuel as [| fuel IH]; intros pos acc; simpl.
  - reflexivity.
  - destruct (read_unsigned file pos) as [s |]; simpl; [| reflexivity].
    destruct (s =? UINT_MAX).
    + simpl. now rewrite app_nil_r.
    + destruct (read_unsigned file (pos + 4)) as [t |]; simpl; [| reflexivity].
      destruct (read_int file (pos + 8)) as [a1 |]; simpl; [| reflexivity].
      destruct (read_int file (pos + 12)) as [a2 |]; simpl; [| reflexivity].
      destruct (read_int file (pos + 16)) as [a3 |]; simpl; [| reflexivity].
      destruct (read_int file (pos + 20)) as [a4 |]; simpl; [| reflexivity].
      rewrite IH. symmetry. rewrite IH.
      destruct (read_bucket fuel file (pos + 24) []) as [l |]; simpl.
      * now rewrite <- app_assoc.
      * reflexivity.
Qed.

(** A bucket read appends to the candidates it is given. *)
Lemma GetContentsOfFileBucket_acc (g : NNGrid) (c : Z) (acc : list _Edge) :
  GetContentsOfFileBucket g c acc =
  (l <- GetContentsOfFileBucket g c [] ;; Ok (acc ++ l)).
Proof.
  unfold GetContentsOfFileBucket.
  destruct (getRAMIndexFromFileIndex (to_int c)) as [r |]; cbn [bind]; [| reflexivity].
  destruct (ram_table_get (ramIndexTable_of g) r) as [s |]; cbn [bind]; [| reflexivity].
  destruct (s =? UINT_MAX); cbn [bind]; [now rewrite app_nil_r |].
  destruct (read_directory (indexInFile g) s (32 * 32)) as [d |]; cbn [bind]; [| reflexivity].
  destruct (cellMap_find (build_cellMap r) c) as [slot |]; cbn [bind]; [| reflexivity].
  destruct (vector_get d slot) as [e |]; cbn [bind]; [| reflexivity].
  destruct (e =? UINT_MAX); cbn [bind]; [now rewrite app_nil_r |].
  apply read_bucket_acc.
Qed.

Lemma collect_buckets_empty (g : NNGrid) (cells : list Z) :
  (forall c, In c cells -> GetContentsOfFileBucket g c [] = Ok []) ->
  forall acc, collect_buckets g cells acc = Ok acc.
Proof.
  induction cells as [| c cells IH]; intros Hall acc; simpl.
  - reflexivity.
  - rewrite GetContentsOfFileBucket_acc, (Hall c (or_introl eq_refl)). simpl.
    rewrite app_nil_r. apply IH. intros c' Hc'. apply Hall. now right.
Qed.

Lemma neighbourhood_cells (fc : Z) :
  neighbourhood fc =
  [ to_unsigned (fc + -1 + -32768); to_unsigned (fc + 0 + -32768);
    to_unsigned (fc + 1 + -32768);
    to_unsigned (fc + -1 + 0); to_unsigned (fc + 0 + 0); to_unsigned (fc + 1 + 0);
    to_unsigned (fc + -1 + 32768); to_unsigned (fc + 0 + 32768);
    to_unsigned (fc + 1 + 32768) ].
Proof. reflexivity. Qed.

(** C9: [FindNearestPointOnEdge] gathers its candidates from the nine file
    cells [fc + i + 32768*j], [i], [j] in [-1, 0, 1], around the file cell
    [fc] of the query, and when every one of the nine buckets yields no
    edge it returns the sentinel coordinate [(INT_MAX, INT_MAX)]. *)
Theorem FindNearestPointOnEdge_empty_window (g : NNGrid) (q : _Coordinate) (fc : Z) :
  getFileIndexForLatLon (lat q) (lon q) = Ok fc ->
  (forall i j, In i [-1; 0; 1] -> In j [-1; 0; 1] ->
     GetContentsOfFileBucket g (to_unsigned (fc + i + 32768 * j)) [] = Ok []) ->
  FindNearestPointOnEdge g q =
    (candidates <- collect_buckets g (neighbourhood fc) [] ;;
     nearest_scan q candidates (mkCoordinate INT_MAX INT_MAX) origin Double.max)
  /\ (forall c, In c (neighbourhood fc) <->
        exists i j, In i [-1; 0; 1] /\ In j [-1; 0; 1]
                    /\ c = to_unsigned (fc + i + 32768 * j))
  /\ FindNearestPointOnEdge g q = Ok (mkCoordinate INT_MAX INT_MAX).
Proof.
  intros Hfc Hempty.
  assert (Hcells : forall c, In c (neighbourhood fc) <->
            exists i j, In i [-1; 0; 1] /\ In j [-1; 0; 1]
                        /\ c = to_unsigned (fc + i + 32768 * j)).
  { intros c. rewrite neighbourhood_cells. split.
    - intros Hin. simpl in Hin.
      repeat (destruct Hin as [Hin | Hin];
              [ subst c;
                first
                  [ exists (-1), (-1); simpl; repeat split; auto 6; f_equal; lia
                  | exists 0, (-1); simpl; repeat split; auto 6; f_equal; lia
                  | exists 1, (-1); simpl; repeat split; auto 6; f_equal; lia
                  | exists (-1), 0; simpl; repeat split; auto 6; f_equal; lia
                  | exists 0, 0; simpl; repeat split; auto 6; f_equal; lia
                  | exists 1, 0; simpl; repeat split; auto 6; f_equal; lia
                  | exists (-1), 1; simpl; repeat split; auto 6; f_equal; lia
                  | exists 0, 1; simpl; repeat split; auto 6; f_equal; lia
                  | exists 1, 1; simpl; repeat split; auto 6; f_equal; lia ]
              | ]).
      contradiction.
    - intros [i [j [Hi [Hj Hc]]]]. subst c. simpl in Hi, Hj.
      destruct Hi as [Hi | [Hi | [Hi | []]]]; subst i;
        destruct Hj as [Hj | [Hj | [Hj | []]]]; subst j; simpl; auto 12. }
  assert (Hdef : FindNearestPointOnEdge g q =
            (candidates <- collect_buckets g (neighbourhood fc) [] ;;
             nearest_scan q candidates (mkCoordinate INT_MAX INT_MAX) origin Double.max)).
  { unfold FindNearestPointOnEdge. rewrite Hfc. reflexivity. }
  split; [exact Hdef | split; [exact Hcells |]].
  rewrite Hdef, collect_buckets_empty.
  - reflexivity.
  - intros c Hc. apply Hcells in Hc. destruct Hc as [i [j [Hi [Hj Hc]]]].
    subst c. now apply Hempty.
Qed.

Lemma FindNearestPointOnEdge_empty_window_witness :
  FindNearestPointOnEdge empty_grid origin = Ok (mkCoordinate INT_MAX INT_MAX).
Proof.
  refine (proj2 (proj2 (FindNearestPointOnEdge_empty_window
                          empty_grid origin 536887296 _ _))).
  - vm_compute. reflexivity.
  - intros i j Hi Hj. simpl in Hi, Hj.
    destruct Hi as [Hi | [Hi | [Hi | []]]]; subst i;
      destruct Hj as [Hj | [Hj | [Hj | []]]]; subst j; vm_compute; reflexivity.
Defined.

(** ** Reader: the return value of [FindRoutingStarts] *)

(** C1 (as stated, refuted): on an index without any super-bucket both
    3x3 candidate collections are empty, and [FindRoutingStarts] returns
    [true], not [false]. *)
Lemma FindRoutingStarts_true_on_empty_windows :
  getFileIndexForLatLon (lat origin) (lon origin) = Ok 536887296
  /\ collect_buckets empty_grid (neighbourhood 536887296) [] = Ok []
  /\ FindRoutingStarts empty_grid origin origin blank_phantom
     = Ok (true, blank_phantom).
Proof.
  split; [vm_compute; reflexivity |].
  split; vm_compute; reflexivity.
Qed.

(** C1 (amended): [FindRoutingStarts] has no path that returns [false]:
    whenever it returns, it returns [true]; and when both candidate
    collections are empty it returns [true] and leaves [*routingStarts] as
    the caller passed it. *)
Theorem FindRoutingStarts_returns_true (g : NNGrid) (s t : _Coordinate)
    (routingStarts : PhantomNodes) :
  (forall b routingStarts',
     FindRoutingStarts g s t routingStarts = Ok (b, routingStarts') -> b = true)
  /\ (forall fs ft,
        getFileIndexForLatLon (lat s) (lon s) = Ok fs ->
        getFileIndexForLatLon (lat t) (lon t) = Ok ft ->
        collect_buckets g (neighbourhood fs) [] = Ok [] ->
        collect_buckets g (neighbourhood ft) [] = Ok [] ->
        FindRoutingStarts g s t routingStarts = Ok (true, routingStarts)).
Proof.
  split.
  - intros b ph' H. unfold FindRoutingStarts in H.
    bind_inv H as fs Hfs. bind_inv H as cs Hcs. bind_inv H as [ph1 tmp1] Hs.
    bind_inv H as ft Hft. bind_inv H as ct Hct. bind_inv H as [ph2 tmp2] Ht.
    now inversion H.
  - intros fs ft Hfs Hft Hs Ht. unfold FindRoutingStarts.
    rewrite Hfs. cbn [bind]. rewrite Hs. cbn [bind start_scan].
    rewrite Hft. cbn [bind]. rewrite Ht. reflexivity.
Qed.

Lemma FindRoutingStarts_returns_true_witness :
  FindRoutingStarts empty_grid origin origin blank_phantom
  = Ok (true, blank_phantom).
Proof.
  refine (proj2 (FindRoutingStarts_returns_true empty_grid origin origin
                   blank_phantom) 536887296 536887296 _ _ _ _);
    vm_compute; reflexivity.
Defined.

(** ** Distance kernel *)

(** In both clamped cases the foot and the squared distance are those of
    the endpoint, and [*r] keeps the ratio as computed. *)
Lemma ComputeDistance_clamps_foot_only (p a b nearest : _Coordinate)
    (r0 : Double.double) :
  let vY := Double.sub (Double.of_int (lon b)) (Double.of_int (lon a)) in
  let vX := Double.sub (Double.of_int (lat b)) (Double.of_int (lat a)) in
  let wY := Double.sub (Double.of_int (lon p)) (Double.of_int (lon a)) in
  let wX := Double.sub (Double.of_int (lat p)) (Double.of_int (lat a)) in
  let dY := Double.sub (Double.of_int (lon p)) (Double.of_int (lon b)) in
  let dX := Double.sub (Double.of_int (lat p)) (Double.of_int (lat b)) in
  let lengthSquared := Double.add (Double.mul vX vX) (Double.mul vY vY) in
  let r :=
    if negb (Double.eqb lengthSquared (Double.of_int 0))
    then Double.div (Double.add (Double.mul vX wX) (Double.mul vY wY)) lengthSquared
    else r0 in
  (Double.leb r (Double.of_int 0) = true ->
   ComputeDistance p a b nearest r0
   = Ok (Double.add (Double.mul wY wY) (Double.mul wX wX),
         mkCoordinate (lat a) (lon a), r))
  /\ (Double.leb r (Double.of_int 0) = false ->
      Double.leb (Double.of_int 1) r = true ->
      ComputeDistance p a b nearest r0
      = Ok (Double.add (Double.mul dY dY) (Double.mul dX dX),
            mkCoordinate (lat b) (lon b), r)).
Proof.
  intros vY vX wY wX dY dX lengthSquared r. unfold ComputeDistance.
  fold vY vX wY wX. fold lengthSquared. fold r. split.
  - intros ->. reflexivity.
  - intros -> ->. reflexivity.
Qed.

(** C2 (the code at the failing input): for the edge [(0,0)-(1000,1000)]
    [ComputeDistance] returns the foot [(1000,1000)] for the query
    [(2000,2000)] with [*r = 2], not [1], and the foot [(0,0)] for the query
    [(-1000,-1000)] with [*r = -1], not [0]: the clamped value is assigned
    to the local [percentage] only. *)
Theorem ComputeDistance_ratio_not_clamped :
  ComputeDistance (mkCoordinate 2000 2000) origin (mkCoordinate 1000 1000)
      origin (Double.of_int 0)
    = Ok (Double.of_int 2000000, mkCoordinate 1000 1000, Double.of_int 2)
  /\ ComputeDistance (mkCoordinate (-1000) (-1000)) origin (mkCoordinate 1000 1000)
      origin (Double.of_int 0)
    = Ok (Double.of_int 2000000, origin, Double.of_int (-1))
  /\ Double.eqb (Double.of_int 2) (Double.of_int 1) = false
  /\ Double.eqb (Double.of_int (-1)) (Double.of_int 0) = false.
Proof.
  split; [vm_compute; reflexivity |].
  split; [vm_compute; reflexivity |].
  split; vm_compute; reflexivity.
Qed.

(** ** Grid geometry *)

(** C6 (the code at the failing input): the latitude [9_000_000] passes
    the assertions of [getFileIndexForLatLon], its file index is not below
    [32768*32768], and the assertion [ramIndex < 1024*1024] of
    [getRAMIndexFromFileIndex] fails on it. *)
Theorem getFileIndexForLatLon_north_edge :
  getFileIndexForLatLon 9000000 0 = Ok 1073758208
  /\ 32768 * 32768 <= 1073758208
  /\ getRAMIndexFromFileIndex (to_int 1073758208) = Fault AssertionFailed.
Proof.
  split; [vm_compute; reflexivity |].
  split; [vm_compute; discriminate | vm_compute; reflexivity].
Qed.

Lemma to_unsigned_small (z : Z) : 0 <= z < 4294967296 -> to_unsigned z = z.
Proof. intros H. unfold to_unsigned. now apply Z.mod_small. Qed.


(** On the file indices of the grid the RAM index is the coarsened row
    times 1024 plus the coarsened column, and its assertion holds. *)
Lemma getRAMIndexFromFileIndex_grid (f : Z) :
  0 <= f < 32768 * 32768 ->
  getRAMIndexFromFileIndex f = Ok (f / 32768 / 32 * 1024 + f mod 32768 / 32)
  /\ 0 <= f / 32768 / 32 * 1024 + f mod 32768 / 32 < 1024 * 1024.
Proof.
  intros Hf.
  assert (Hrow : 0 <= f / 32768 < 32768).
  { split; [apply Z.div_pos; lia | apply Z.div_lt_upper_bound; lia]. }
  assert (Hcol : 0 <= f mod 32768 < 32768) by (apply Z.mod_pos_bound; lia).
  assert (Hr : 0 <= f / 32768 / 32 < 1024).
  { split; [apply Z.div_pos; lia | apply Z.div_lt_upper_bound; lia]. }
  assert (Hc : 0 <= f mod 32768 / 32 < 1024).
  { split; [apply Z.div_pos; lia | apply Z.div_lt_upper_bound; lia]. }
  split; [| lia].
  unfold getRAMIndexFromFileIndex.
  rewrite Z.quot_div_nonneg, Z.rem_mod_nonneg by lia.
  rewrite (to_unsigned_small (f / 32768)) by lia.
  rewrite (to_unsigned_small (f / 32768 / 32 * 1024)) by lia.
  rewrite (to_unsigned_small (f mod 32768)) by lia.
  rewrite to_unsigned_small by lia.
  replace (_ <? 1024 * 1024) with true by (symmetry; apply Z.ltb_lt; lia).
  reflexivity.
Qed.

(** ** Rasterizer *)

Lemma push_cell_Ok_inv (x y : Z) (acc l : list (Z * Z)) :
  push_cell x y acc = Ok l ->
  exists r, l = acc ++ [(cell_index (x, y), r)].
Proof.
  unfold push_cell. intros H. bind_inv H as r Hr.
  inversion H. eexists. reflexivity.
Qed.

Lemma push_cell_grid (x y : Z) (acc : list (Z * Z)) :
  0 <= (y - 1) * 32768 + x < 32768 * 32768 ->
  exists r, push_cell x y acc = Ok (acc ++ [(cell_index (x, y), r)]).
Proof.
  intros H. unfold push_cell.
  destruct (getRAMIndexFromFileIndex_grid _ H) as [-> _]. cbn [bind].
  eexists. reflexivity.
Qed.

Lemma bresenham_walk_length (n : nat) (s : steps) :
  forall x y err, length (bresenham_walk n s x y err) = n.
Proof.
  induction n as [| n IH]; intros x y err; simpl; [reflexivity |].
  destruct (err - es s <? 0); simpl; now rewrite IH.
Qed.

(** What the loop returns is what it was given followed by the cells of
    the walk, in order. *)
Lemma bresenham_loop_walk (n : nat) (s : steps) :
  forall x y err acc l,
    bresenham_loop n s x y err acc = Ok l ->
    map fst l = map fst acc ++ map cell_index (bresenham_walk n s x y err).
Proof.
  induction n as [| n IH]; intros x y err acc l H; simpl in *.
  - inversion H. now rewrite app_nil_r.
  - destruct (err - es s <? 0); bind_inv H as l1 Hl1;
      apply push_cell_Ok_inv in Hl1; destruct Hl1 as [r ->];
      apply IH in H; rewrite H, map_app, <- app_assoc; reflexivity.
Qed.

Lemma bresenham_loop_defined (n : nat) (s : steps) :
  forall x y err acc,
    (forall p, In p (bresenham_walk n s x y err) ->
       0 <= (snd p - 1) * 32768 + fst p < 32768 * 32768) ->
    exists l, bresenham_loop n s x y err acc = Ok l.
Proof.
  induction n as [| n IH]; intros x y err acc Hall; simpl in *.
  - eexists. reflexivity.
  - destruct (err - es s <? 0).
    + destruct (push_cell_grid (x + ddx s) (y + ddy s) acc) as [r ->].
      { apply (Hall (x + ddx s, y + ddy s)). now left. }
      cbn [bind]. apply IH. intros p Hp. apply Hall. now right.
    + destruct (push_cell_grid (x + pdx s) (y + pdy s) acc) as [r ->].
      { apply (Hall (x + pdx s, y + pdy s)). now left. }
      cbn [bind]. apply IH. intros p Hp. apply Hall. now right.
Qed.

(** The error term keeps the walk on the line: after [t] steps, [k] of
    them diagonal, the cell is [k] diagonal and [t - k] parallel steps from
    the start and the error term is again in [[0, el)]. *)
Lemma bresenham_walk_nth (n : nat) (s : steps) :
  0 <= es s <= el s ->
  forall x y err (i : nat) (d : Z * Z),
    0 <= err < el s ->
    (i < n)%nat ->
    exists k,
      0 <= k <= Z.of_nat i + 1
      /\ nth i (bresenham_walk n s x y err) d
         = (x + k * ddx s + (Z.of_nat i + 1 - k) * pdx s,
            y + k * ddy s + (Z.of_nat i + 1 - k) * pdy s)
      /\ 0 <= err - (Z.of_nat i + 1) * es s + k * el s < el s.
Proof.
  intros Hs. induction n as [| n IH]; intros x y err i d Herr Hi; [lia |].
  cbn [bresenham_walk]. destruct (err - es s <? 0) eqn:Hneg.
  - apply Z.ltb_lt in Hneg. destruct i as [| i]; cbn [nth].
    + exists 1. change (Z.of_nat 0) with 0.
      repeat split; try lia. f_equal; lia.
    + destruct (IH (x + ddx s) (y + ddy s) (err - es s + el s) i d)
        as [k [Hk [Hnth Hbound]]]; [lia | lia |].
      exists (k + 1). rewrite Hnth, Nat2Z.inj_succ.
      repeat split; try lia. f_equal; lia.
  - apply Z.ltb_ge in Hneg. destruct i as [| i]; cbn [nth].
    + exists 0. change (Z.of_nat 0) with 0.
      repeat split; try lia. f_equal; lia.
    + destruct (IH (x + pdx s) (y + pdy s) (err - es s) i d)
        as [k [Hk [Hnth Hbound]]]; [lia | lia |].
      exists k. rewrite Hnth, Nat2Z.inj_succ.
      repeat split; try lia. f_equal; lia.
Qed.

Lemma signum_abs (z : Z) : signum z * Z.abs z = z.
Proof.
  unfold signum. destruct (0 <? z) eqn:Hp; [apply Z.ltb_lt in Hp; lia |].
  destruct (z <? 0) eqn:Hn; [apply Z.ltb_lt in Hn; lia |].
  apply Z.ltb_ge in Hp, Hn. lia.
Qed.

Lemma abs_by_test (z : Z) : (if z <? 0 then - z else z) = Z.abs z.
Proof. destruct (z <? 0) eqn:H; [apply Z.ltb_lt in H | apply Z.ltb_ge in H]; lia. Qed.

Lemma signum_cases (z : Z) :
  (z < 0 /\ signum z = -1) \/ (z = 0 /\ signum z = 0) \/ (0 < z /\ signum z = 1).
Proof.
  unfold signum. destruct (0 <? z) eqn:Hp; [apply Z.ltb_lt in Hp; lia |].
  destruct (z <? 0) eqn:Hn; [apply Z.ltb_lt in Hn; lia |].
  apply Z.ltb_ge in Hp, Hn. lia.
Qed.

Lemma bresenham_unfold (xstart ystart xend yend : Z) (acc : list (Z * Z)) :
  bresenham xstart ystart xend yend acc =
  let s := bresenham_branch (Z.abs (xend - xstart)) (Z.abs (yend - ystart))
             (signum (xend - xstart)) (signum (yend - ystart)) in
  (l <- push_cell xstart ystart acc ;;
   bresenham_loop (Z.to_nat (el s)) s xstart ystart (Z.quot (el s) 2) l).
Proof. unfold bresenham. now rewrite !abs_by_test. Qed.

Lemma bresenham_branch_el (dx dy incx incy : Z) :
  el (bresenham_branch dx dy incx incy) = Z.max dx dy.
Proof.
  unfold bresenham_branch. destruct (dx >? dy) eqn:H; cbn [el].
  - apply Z.gtb_lt in H. lia.
  - rewrite Z.gtb_ltb in H. apply Z.ltb_ge in H. lia.
Qed.

Lemma bresenham_branch_es (dx dy incx incy : Z) :
  0 <= dx -> 0 <= dy ->
  0 <= es (bresenham_branch dx dy incx incy)
       <= el (bresenham_branch dx dy incx incy).
Proof.
  intros Hx Hy. unfold bresenham_branch. destruct (dx >? dy) eqn:H; cbn [es el].
  - apply Z.gtb_lt in H. lia.
  - rewrite Z.gtb_ltb in H. apply Z.ltb_ge in H. lia.
Qed.

Lemma half_in_range (n : Z) : 0 < n -> 0 <= Z.quot n 2 < n.
Proof.
  intros H. rewrite Z.quot_div_nonneg by lia.
  split; [apply Z.div_pos; lia | apply Z.div_lt; lia].
Qed.

(** The cell reached after [i + 1] steps of the walk between two
    endpoints: it advances [i + 1] steps along the longer extent and at most
    the shorter extent along the other, and after all steps it is the end. *)
Lemma bresenham_walk_cell (xstart ystart xend yend : Z) (i : nat) (d : Z * Z) :
  let dx := Z.abs (xend - xstart) in
  let dy := Z.abs (yend - ystart) in
  let incx := signum (xend - xstart) in
  let incy := signum (yend - ystart) in
  let s := bresenham_branch dx dy incx incy in
  (i < Z.to_nat (el s))%nat ->
  exists a b,
    nth i (bresenham_walk (Z.to_nat (el s)) s xstart ystart (Z.quot (el s) 2)) d
      = (xstart + a * incx, ystart + b * incy)
    /\ 0 <= a <= dx /\ 0 <= b <= dy
    /\ (Z.of_nat i + 1 = el s -> a = dx /\ b = dy).
Proof.
  intros dx dy incx incy s Hi.
  assert (Hdx : 0 <= dx) by (subst dx; lia).
  assert (Hdy : 0 <= dy) by (subst dy; lia).
  assert (Hel : 0 < el s) by lia.
  pose proof (bresenham_branch_es dx dy incx incy Hdx Hdy) as Hes. fold s in Hes.
  pose proof (half_in_range (el s) Hel) as Hhalf.
  destruct (bresenham_walk_nth (Z.to_nat (el s)) s Hes xstart ystart
              (Z.quot (el s) 2) i d Hhalf Hi) as [k [Hk [Hnth Hbound]]].
  rewrite Hnth. clear Hnth.
  assert (Ht : Z.of_nat i + 1 <= el s) by lia.
  set (t := Z.of_nat i + 1) in *. set (q := Z.quot (el s) 2) in *.
  assert (Hkes : k <= es s).
  { assert (k * el s < (1 + es s) * el s) by nia. nia. }
  assert (Hlast : t = el s -> k = es s).
  { intros Heq. assert (k - es s = 0) by nia. lia. }
  clearbody t q. revert Hes Hel Hbound Ht Hkes Hlast. subst s.
  unfold bresenham_branch. destruct (dx >? dy) eqn:Hgt; cbn [pdx pdy ddx ddy es el];
    intros Hes Hel Hbound Ht Hkes Hlast.
  - exists t, k. repeat split; try lia. f_equal; lia.
  - exists k, t. repeat split; try lia. f_equal; lia.
Qed.

(** On the rectangle of cells on which the assertion of
    [getRAMIndexFromFileIndex] holds, [bresenham] returns. *)
Lemma bresenham_defined (xstart ystart xend yend : Z) :
  0 <= xstart <= 32767 -> 1 <= ystart <= 32768 ->
  0 <= xend <= 32767 -> 1 <= yend <= 32768 ->
  exists l, bresenham xstart ystart xend yend [] = Ok l.
Proof.
  intros Hxs Hys Hxe Hye. rewrite bresenham_unfold. cbv zeta.
  set (s := bresenham_branch _ _ _ _).
  destruct (push_cell_grid xstart ystart []) as [r ->]; [lia |].
  cbn [bind]. apply bresenham_loop_defined.
  intros p Hp. destruct (In_nth _ _ (0, 0) Hp) as [i [Hi Hnth]].
  rewrite bresenham_walk_length in Hi.
  destruct (bresenham_walk_cell xstart ystart xend yend i (0, 0) Hi)
    as [a [b [Hcell [Ha [Hb _]]]]].
  fold s in Hcell. rewrite <- Hnth, Hcell. cbn [fst snd].
  destruct (signum_cases (xend - xstart)) as [[? ->] | [[? ->] | [? ->]]];
    destruct (signum_cases (yend - ystart)) as [[? ->] | [[? ->] | [? ->]]];
    lia.
Qed.

(** C8: between grid endpoints [bresenham] emits one pair for the first
    cell and one per round of its loop, which runs
    [max(|xend-xstart|, |yend-ystart|)] times: whenever it returns, the
    list holds [1 + max(|xend-xstart|, |yend-ystart|)] pairs, and it
    returns whenever the assertion of [getRAMIndexFromFileIndex] holds on
    the rectangle of the endpoints. *)
Theorem bresenham_emits_one_plus_max (xstart ystart xend yend : Z) :
  0 <= xstart <= 32768 -> 0 <= ystart <= 32768 ->
  0 <= xend <= 32768 -> 0 <= yend <= 32768 ->
  (forall l, bresenham xstart ystart xend yend [] = Ok l ->
     Z.of_nat (length l)
     = 1 + Z.max (Z.abs (xend - xstart)) (Z.abs (yend - ystart)))
  /\ (xstart <= 32767 -> xend <= 32767 -> 1 <= ystart -> 1 <= yend ->
      exists l, bresenham xstart ystart xend yend [] = Ok l).
Proof.
  intros Hxs Hys Hxe Hye. split.
  - rewrite bresenham_unfold. cbv zeta. set (s := bresenham_branch _ _ _ _).
    intros l H. bind_inv H as l0 Hl0.
    apply push_cell_Ok_inv in Hl0. destruct Hl0 as [r ->].
    apply bresenham_loop_walk in H.
    apply (f_equal (@length Z)) in H.
    rewrite length_app, !length_map, bresenham_walk_length in H.
    rewrite H. cbn [app length]. unfold s. rewrite bresenham_branch_el. lia.
  - intros Hxs' Hxe' Hys' Hye'. apply bresenham_defined; lia.
Qed.

Lemma bresenham_emits_one_plus_max_witness :
  (forall l, bresenham 3 5 6 7 [] = Ok l ->
     Z.of_nat (length l) = 1 + Z.max (Z.abs (6 - 3)) (Z.abs (7 - 5)))
  /\ (3 <= 32767 -> 6 <= 32767 -> 1 <= 5 -> 1 <= 7 ->
      exists l, bresenham 3 5 6 7 [] = Ok l).
Proof. apply (bresenham_emits_one_plus_max 3 5 6 7); lia. Defined.

(** The first and the last cell that [bresenham] emits are the cells of
    its two endpoints. *)
Lemma bresenham_endpoints (xstart ystart xend yend : Z) (l : list (Z * Z)) :
  bresenham xstart ystart xend yend [] = Ok l ->
  In (cell_index (xstart, ystart)) (map fst l)
  /\ In (cell_index (xend, yend)) (map fst l).
Proof.
  rewrite bresenham_unfold. cbv zeta. set (s := bresenham_branch _ _ _ _).
  intros H. bind_inv H as l0 Hl0.
  apply push_cell_Ok_inv in Hl0. destruct Hl0 as [r ->].
  apply bresenham_loop_walk in H. rewrite H. cbn [app map fst].
  split; [now left |].
  destruct (Z.to_nat (el s)) as [| n] eqn:Hn.
  - left. unfold s in Hn. rewrite bresenham_branch_el in Hn.
    unfold cell_index. cbn [fst snd]. f_equal. lia.
  - right. apply in_map_iff.
    destruct (bresenham_walk_cell xstart ystart xend yend n (0, 0))
      as [a [b [Hcell [Ha [Hb Hlast]]]]].
    { fold s. lia. }
    fold s in Hcell, Hlast. destruct Hlast as [-> ->]; [lia |].
    rewrite !(Z.mul_comm (Z.abs _)), !signum_abs in Hcell.
    replace (xstart + (xend - xstart)) with xend in Hcell by lia.
    replace (ystart + (yend - ystart)) with yend in Hcell by lia.
    exists (xend, yend). split; [reflexivity |].
    rewrite <- Hcell, <- Hn. apply nth_In. rewrite bresenham_walk_length. lia.
Qed.

(** Every file index that [bresenham] emits is [(y-1)*32768 + x] for a
    cell [(x, y)] of its walk. *)
Lemma bresenham_cells (xstart ystart xend yend : Z) (l : list (Z * Z)) :
  bresenham xstart ystart xend yend [] = Ok l ->
  exists cells, map fst l = map cell_index cells.
Proof.
  rewrite bresenham_unfold. cbv zeta. intros H. bind_inv H as l0 Hl0.
  apply push_cell_Ok_inv in Hl0. destruct Hl0 as [r ->].
  apply bresenham_loop_walk in H.
  eexists ((xstart, ystart) :: _). rewrite H. reflexivity.
Qed.

(** With equal extents every step is diagonal, so the parallel step
    [pdx], [pdy] of the chosen branch is never taken. *)
Lemma bresenham_loop_tie (n : nat) (d incx incy : Z) :
  forall x y err acc,
    0 <= err < d ->
    bresenham_loop n
      {| pdx := 0; pdy := incy; ddx := incx; ddy := incy; es := d; el := d |}
      x y err acc
    = bresenham_loop n
        {| pdx := incx; pdy := 0; ddx := incx; ddy := incy; es := d; el := d |}
        x y err acc.
Proof.
  induction n as [| n IH]; intros x y err acc Herr; cbn [bresenham_loop].
  - reflexivity.
  - cbn [pdx pdy ddx ddy es el].
    replace (err - d <? 0) with true by (symmetry; apply Z.ltb_lt; lia).
    destruct (push_cell (x + incx) (y + incy) acc); cbn [bind]; [| reflexivity].
    apply IH. lia.
Qed.

(** C4 (as stated, refuted): for the segment from [(0,0)] to [(1,1)],
    whose extents are equal, the parameters chosen are not the x-major ones:
    [pdx] is not [incx] and [pdy] is not [0]. *)
Lemma bresenham_branch_tie_not_x_major :
  let incx := signum (1 - 0) in
  let incy := signum (1 - 0) in
  let s := bresenham_branch (Z.abs (1 - 0)) (Z.abs (1 - 0)) incx incy in
  pdx s <> incx /\ pdy s <> 0.
Proof. split; vm_compute; discriminate. Qed.

(** C4 (amended): when [|xend-xstart|] equals [|yend-ystart|] the test
    [dx > dy] fails and the else branch is taken: [pdx = 0], [pdy = incy],
    [es = dx], [el = dy].  All steps are then diagonal, so the cells emitted
    are those the x-major parameters would emit. *)
Theorem bresenham_tie_takes_else_branch (xstart ystart xend yend : Z)
    (indexList : list (Z * Z)) :
  Z.abs (xend - xstart) = Z.abs (yend - ystart) ->
  let d := Z.abs (xend - xstart) in
  let incx := signum (xend - xstart) in
  let incy := signum (yend - ystart) in
  bresenham_branch d d incx incy
    = {| pdx := 0; pdy := incy; ddx := incx; ddy := incy; es := d; el := d |}
  /\ bresenham xstart ystart xend yend indexList
     = (l <- push_cell xstart ystart indexList ;;
        bresenham_loop (Z.to_nat d)
          {| pdx := incx; pdy := 0; ddx := incx; ddy := incy; es := d; el := d |}
          xstart ystart (Z.quot d 2) l).
Proof.
  intros Htie d incx incy.
  assert (Hbranch : bresenham_branch d d incx incy
            = {| pdx := 0; pdy := incy; ddx := incx; ddy := incy;
                 es := d; el := d |}).
  { unfold bresenham_branch. now rewrite Z.gtb_ltb, Z.ltb_irrefl. }
  split; [exact Hbranch |].
  rewrite bresenham_unfold. cbv zeta. rewrite <- Htie. fold d incx incy.
  rewrite Hbranch. cbn [el].
  destruct (push_cell xstart ystart indexList) as [l |]; cbn [bind]; [| reflexivity].
  destruct (Z.eq_dec d 0) as [Hd | Hd].
  - rewrite Hd. reflexivity.
  - apply bresenham_loop_tie. apply half_in_range. subst d. lia.
Qed.

Lemma bresenham_tie_takes_else_branch_witness :
  bresenham_branch 2 2 1 (-1)
    = {| pdx := 0; pdy := -1; ddx := 1; ddy := -1; es := 2; el := 2 |}
  /\ bresenham 3 7 5 5 []
     = (l <- push_cell 3 7 [] ;;
        bresenham_loop 2
          {| pdx := 1; pdy := 0; ddx := 1; ddy := -1; es := 2; el := 2 |}
          3 7 1 l).
Proof. apply (bresenham_tie_takes_else_branch 3 7 5 5 []). reflexivity. Defined.

(** ** Builder: first-element dereferences *)

Lemma bind_not_Fault {A B : Type} (c : result A) (k : A -> result B) (f : fault) :
  c <> Fault f ->
  (forall a, c = Ok a -> k a <> Fault f) ->
  bind c k <> Fault f.
Proof.
  intros Hc Hk. destruct c as [a | f']; cbn [bind].
  - now apply Hk.
  - intros H. apply Hc. congruence.
Qed.

Lemma assert_not_EmptyDereference (b : bool) : assert b <> Fault EmptyDereference.
Proof. destruct b; discriminate. Qed.

Lemma getRAMIndexFromFileIndex_not_EmptyDereference (f : Z) :
  getRAMIndexFromFileIndex f <> Fault EmptyDereference.
Proof.
  unfold getRAMIndexFromFileIndex.
  apply bind_not_Fault; [apply assert_not_EmptyDereference | discriminate].
Qed.

Lemma assert_adjacent_not_EmptyDereference
    (p : GridEdgeData -> GridEdgeData -> bool) (v : list GridEdgeData) :
  assert_adjacent p v <> Fault EmptyDereference.
Proof.
  induction v as [| a [| b v] IH]; cbn [assert_adjacent]; try discriminate.
  apply bind_not_Fault; [apply assert_not_EmptyDereference | intros _ _; exact IH].
Qed.

Lemma vector_set_not_EmptyDereference (v : list Z) (i x : Z) :
  vector_set v i x <> Fault EmptyDereference.
Proof. unfold vector_set. destruct (_ && _); discriminate. Qed.

Lemma ram_table_set_not_EmptyDereference (t : ram_table) (i x : Z) :
  ram_table_set t i x <> Fault EmptyDereference.
Proof. unfold ram_table_set. destruct (_ && _); discriminate. Qed.

Lemma front_not_EmptyDereference {A : Type} (v : list A) :
  v <> [] -> front v <> Fault EmptyDereference.
Proof. destruct v; [congruence | discriminate]. Qed.

Lemma Flush_not_EmptyDereference (v : list GridEdgeData) (buf : list Z) (index : Z) :
  v <> [] ->
  FlushEntriesWithSameFileIndexToBuffer v buf index <> Fault EmptyDereference.
Proof.
  intros Hv. unfold FlushEntriesWithSameFileIndexToBuffer.
  apply bind_not_Fault; [now apply front_not_EmptyDereference | intros _ _].
  apply bind_not_Fault; [apply assert_adjacent_not_EmptyDereference | intros _ _].
  apply bind_not_Fault; [apply assert_adjacent_not_EmptyDereference | intros _ _].
  discriminate.
Qed.

Lemma flush_bucket_not_EmptyDereference (cellMap : cell_map) (fileOffset : Z)
    (st : fill_state) :
  entriesWithSameFileIndex st <> [] ->
  flush_bucket cellMap fileOffset st <> Fault EmptyDereference.
Proof.
  intros Hg. unfold flush_bucket.
  apply bind_not_Fault; [now apply front_not_EmptyDereference | intros first _].
  apply bind_not_Fault;
    [destruct (cellMap_find _ _); discriminate | intros c _].
  apply bind_not_Fault;
    [apply getRAMIndexFromFileIndex_not_EmptyDereference | intros _ _].
  apply bind_not_Fault; [apply vector_set_not_EmptyDereference | intros ci _].
  apply bind_not_Fault; [now apply Flush_not_EmptyDereference | intros [n buf] _].
  discriminate.
Qed.

(** The loop of [FillCell] dereferences [entriesWithSameFileIndex.begin()]
    only after an entry was pushed: it starts with the file index of the
    first entry, so the first round does not flush. *)
Lemma FillCell_loop_front (cellMap : cell_map) (fileOffset : Z)
    (its : list GridEdgeData) :
  forall last st,
    (entriesWithSameFileIndex st <> []
     \/ exists it its', its = it :: its' /\ fileIndex it = last) ->
    FillCell_loop cellMap fileOffset its last st <> Fault EmptyDereference
    /\ forall st', FillCell_loop cellMap fileOffset its last st = Ok st' ->
                   entriesWithSameFileIndex st' <> [].
Proof.
  induction its as [| it its IH]; intros last st Hst; cbn [FillCell_loop].
  - split; [discriminate |]. intros st' H. inversion H. subst st'.
    destruct Hst as [Hst | [it [its' [Hnil _]]]]; [exact Hst | discriminate].
  - assert (Hnext : forall st1,
              entriesWithSameFileIndex
                {| entriesWithSameFileIndex := entriesWithSameFileIndex st1 ++ [it];
                   cellIndex := cellIndex st1;
                   tmpBuffer := tmpBuffer st1;
                   indexIntoTmpBuffer := indexIntoTmpBuffer st1 |} <> []
              \/ exists it0 its', its = it0 :: its' /\ fileIndex it0 = fileIndex it).
    { intros st1. left. cbn. now destruct (entriesWithSameFileIndex st1). }
    split.
    + apply bind_not_Fault; [apply assert_not_EmptyDereference | intros _ _].
      apply bind_not_Fault.
      * destruct (fileIndex it =? last) eqn:Heq; cbn [negb]; [discriminate |].
        apply flush_bucket_not_EmptyDereference.
        destruct Hst as [Hst | [it0 [its' [Hcons Hlast]]]]; [exact Hst |].
        inversion Hcons. subst it0. apply Z.eqb_neq in Heq. contradiction.
      * intros st1 _. apply (IH _ _ (Hnext st1)).
    + intros st' H. bind_inv H as u Hu. bind_inv H as st1 Hst1.
      apply (proj2 (IH _ _ (Hnext st1)) st' H).
Qed.

Lemma unique_from_head (kept : GridEdgeData) (v : list GridEdgeData) :
  exists u, unique_from kept v = kept :: u.
Proof.
  revert kept. induction v as [| x v IH]; intros kept; cbn [unique_from].
  - now exists [].
  - destruct (GridEdgeData_eqb kept x); [apply IH | eexists; reflexivity].
Qed.

Section FirstElements.

Variable std_sort :
  (GridEdgeData -> GridEdgeData -> bool) -> list GridEdgeData -> list GridEdgeData.
Variable stxxl_sort :
  (GridEdgeData -> GridEdgeData -> bool) -> list GridEdgeData -> list GridEdgeData.

Hypothesis std_sort_permutes :
  forall comp v, Permutation v (std_sort comp v).
Hypothesis stxxl_sort_permutes :
  forall comp v, Permutation v (stxxl_sort comp v).

Lemma FillCell_front (group : list GridEdgeData) (fileOffset : Z) :
  group <> [] -> FillCell std_sort group fileOffset <> Fault EmptyDereference.
Proof.
  intros Hgroup. unfold FillCell.
  apply bind_not_Fault; [now apply front_not_EmptyDereference | intros first0 _].
  apply bind_not_Fault; [apply assert_adjacent_not_EmptyDereference | intros _ _].
  destruct (std_sort CompareGridEdgeDataByFileIndex group) as [| x sorted] eqn:Hsort.
  { exfalso. apply Hgroup. apply Permutation_nil.
    rewrite <- Hsort. apply Permutation_sym, std_sort_permutes. }
  cbn [front bind unique].
  destruct (unique_from_head x sorted) as [u Hu]. rewrite Hu.
  assert (Hloop := FillCell_loop_front (build_cellMap (ramIndex first0)) fileOffset
            (x :: u) (fileIndex x)
            {| entriesWithSameFileIndex := [];
               cellIndex := repeat UINT_MAX (32 * 32);
               tmpBuffer := [];
               indexIntoTmpBuffer := 0 |}
            (or_intror (ex_intro _ x (ex_intro _ u (conj eq_refl eq_refl))))).
  destruct Hloop as [Hfault Hgroup'].
  apply bind_not_Fault; [exact Hfault | intros st Hst].
  apply Hgroup' in Hst.
  apply bind_not_Fault; [now apply front_not_EmptyDereference | intros first1 _].
  apply bind_not_Fault; [apply assert_not_EmptyDereference | intros _ _].
  apply bind_not_Fault; [now apply flush_bucket_not_EmptyDereference | intros st1 _].
  apply bind_not_Fault; [apply assert_not_EmptyDereference | intros _ _].
  discriminate.
Qed.

(** The loop of [ConstructGrid] hands a group to [FillCell] only after an
    entry was pushed to it. *)
Lemma ConstructGrid_loop_front (vts : list GridEdgeData) :
  forall st,
    (entriesInFileWithRAMSameIndex st <> []
     \/ exists vt vts', vts = vt :: vts' /\ ramIndex vt = indexInRamTable st) ->
    ConstructGrid_loop std_sort vts st <> Fault EmptyDereference
    /\ forall st', ConstructGrid_loop std_sort vts st = Ok st' ->
                   entriesInFileWithRAMSameIndex st' <> [].
Proof.
  induction vts as [| vt vts IH]; intros st Hst; cbn [ConstructGrid_loop].
  - split; [discriminate |]. intros st' H. inversion H. subst st'.
    destruct Hst as [Hst | [vt [vts' [Hnil _]]]]; [exact Hst | discriminate].
  - assert (Hnext : forall st1,
              entriesInFileWithRAMSameIndex
                {| entriesInFileWithRAMSameIndex :=
                     entriesInFileWithRAMSameIndex st1 ++ [vt];
                   indexInRamTable := indexInRamTable st1;
                   lastPositionInIndexFile := lastPositionInIndexFile st1;
                   numberOfUsedCells := numberOfUsedCells st1;
                   indexOutFile := indexOutFile st1;
                   ramIndexTable := ramIndexTable st1 |} <> []
              \/ exists vt0 vts',
                   vts = vt0 :: vts'
                   /\ ramIndex vt0 =
                      indexInRamTable
                        {| entriesInFileWithRAMSameIndex :=
                             entriesInFileWithRAMSameIndex st1 ++ [vt];
                           indexInRamTable := indexInRamTable st1;
                           lastPositionInIndexFile := lastPositionInIndexFile st1;
                           numberOfUsedCells := numberOfUsedCells st1;
                           indexOutFile := indexOutFile st1;
                           ramIndexTable := ramIndexTable st1 |}).
    { intros st1. left. cbn. now destruct (entriesInFileWithRAMSameIndex st1). }
    split.
    + apply bind_not_Fault.
      * destruct (ramIndex vt =? indexInRamTable st) eqn:Heq; cbn [negb];
          [discriminate |].
        apply bind_not_Fault.
        -- apply FillCell_front.
           destruct Hst as [Hst | [vt0 [vts' [Hcons Hlast]]]]; [exact Hst |].
           inversion Hcons. subst vt0. apply Z.eqb_neq in Heq. contradiction.
        -- intros [n bytes] _.
           apply bind_not_Fault;
             [apply ram_table_set_not_EmptyDereference | discriminate].
      * intros st1 _. apply (IH _ (Hnext st1)).
    + intros st' H. bind_inv H as st1 Hst1.
      apply (proj2 (IH _ (Hnext st1)) st' H).
Qed.

(** C10: [ConstructGrid] needs a builder that holds an entry.  On an
    empty entry sequence it dereferences [entries->begin()], and so would
    [FillCell] on an empty group; [AddEdge] always leaves an entry behind;
    and on a non-empty entry sequence every group handed to [FillCell] is
    non-empty, so that no first-element dereference of [ConstructGrid] or
    [FillCell] happens on an empty container. *)
Theorem ConstructGrid_needs_an_entry :
  ConstructGrid std_sort stxxl_sort [] = Fault EmptyDereference
  /\ (forall fileOffset, FillCell std_sort [] fileOffset = Fault EmptyDereference)
  /\ (forall entries e s t entries',
        AddEdge entries e s t = Ok entries' -> entries' <> [])
  /\ (forall entries,
        entries <> [] ->
        ConstructGrid std_sort stxxl_sort entries <> Fault EmptyDereference).
Proof.
  split; [| split; [| split]].
  - unfold ConstructGrid.
    destruct (stxxl_sort CompareGridEdgeDataByRamIndex []) eqn:Hsort; [reflexivity |].
    pose proof (stxxl_sort_permutes CompareGridEdgeDataByRamIndex []) as Hperm.
    rewrite Hsort in Hperm. now apply Permutation_nil_cons in Hperm.
  - reflexivity.
  - intros entries e s t entries' H. unfold AddEdge in H. bind_inv H as l Hl.
    inversion H. clear H.
    unfold getListOfIndexesForEdgeAndGridSize in Hl.
    bind_inv Hl as xs Hxs. bind_inv Hl as ys Hys.
    bind_inv Hl as xe Hxe. bind_inv Hl as ye Hye.
    rewrite bresenham_unfold in Hl. cbv zeta in Hl. bind_inv Hl as l0 Hl0.
    apply push_cell_Ok_inv in Hl0. destruct Hl0 as [r ->].
    apply bresenham_loop_walk in Hl. destruct l as [| p l]; [discriminate Hl |].
    intros Hnil. apply (f_equal (@length GridEdgeData)) in Hnil.
    rewrite length_app in Hnil. cbn in Hnil. lia.
  - intros entries Hentries. unfold ConstructGrid.
    destruct (stxxl_sort CompareGridEdgeDataByRamIndex entries) as [| x sorted] eqn:Hsort.
    { exfalso. apply Hentries. apply Permutation_nil.
      rewrite <- Hsort. apply Permutation_sym, stxxl_sort_permutes. }
    cbn [front bind].
    assert (Hloop := ConstructGrid_loop_front (x :: sorted)
              {| entriesInFileWithRAMSameIndex := [];
                 indexInRamTable := ramIndex x;
                 lastPositionInIndexFile := 0;
                 numberOfUsedCells := 0;
                 indexOutFile := [];
                 ramIndexTable := empty_ram_table |}
              (or_intror (ex_intro _ x (ex_intro _ sorted (conj eq_refl eq_refl))))).
    destruct Hloop as [Hfault Hgroup].
    apply bind_not_Fault; [exact Hfault | intros st Hst].
    apply Hgroup in Hst.
    apply bind_not_Fault; [now apply FillCell_front | intros [n bytes] _].
    apply bind_not_Fault; [apply ram_table_set_not_EmptyDereference | intros tb _].
    apply bind_not_Fault; [apply assert_not_EmptyDereference | discriminate].
Qed.

End FirstElements.

(** ** The insertion sort of the concrete runs *)

Lemma insert_sorted_permutes (comp : GridEdgeData -> GridEdgeData -> bool)
    (x : GridEdgeData) (v : list GridEdgeData) :
  Permutation (x :: v) (insert_sorted comp x v).
Proof.
  induction v as [| y v IH]; cbn [insert_sorted].
  - apply Permutation_refl.
  - destruct (comp y x).
    + apply perm_trans with (y :: x :: v); [apply perm_swap |].
      now apply perm_skip.
    + apply Permutation_refl.
Qed.

Lemma insertion_sort_permutes (comp : GridEdgeData -> GridEdgeData -> bool)
    (v : list GridEdgeData) :
  Permutation v (insertion_sort comp v).
Proof.
  induction v as [| x v IH]; cbn [insertion_sort fold_right].
  - apply Permutation_refl.
  - apply perm_trans with (x :: insertion_sort comp v).
    + now apply perm_skip.
    + apply insert_sorted_permutes.
Qed.



Lemma ConstructGrid_needs_an_entry_witness :
  ConstructGrid insertion_sort insertion_sort
    [mkGridEdgeData edge_A 536854528 523776] <> Fault EmptyDereference.
Proof.
  apply (proj2 (proj2 (proj2
           (ConstructGrid_needs_an_entry insertion_sort insertion_sort
              insertion_sort_permutes insertion_sort_permutes)))).
  discriminate.
Defined.

(** ** Builder: duplicates *)

(** C5 (the code at the failing input): edge 11-12, edge 13-14 and edge
    11-12 again are added, all three in the file cell 536854528.  The sort by
    file index does not bring the two equal entries together, [unique]
    removes adjacent duplicates only, and the bucket of the built index
    holds edge 11-12 twice; the index file is 24 bytes longer than the one
    built after adding each edge once.  Two equal entries that end up next
    to each other, as after adding edge 11-12 twice and nothing else, are
    stored once. *)
Theorem duplicate_entry_survives_unique :
  let edge_A' := mkEdge 11 12 (mkCoordinate 0 0) (mkCoordinate 1 1) in
  let edge_B' := mkEdge 13 14 (mkCoordinate 0 0) (mkCoordinate 1 1) in
  add_edges [edge_A; edge_B; edge_A]
    = Ok [ mkGridEdgeData edge_A' 536854528 523776;
           mkGridEdgeData edge_B' 536854528 523776;
           mkGridEdgeData edge_A' 536854528 523776 ]
  /\ (entries <- add_edges [edge_A; edge_B; edge_A] ;;
      g <- built_grid entries ;;
      bucket <- GetContentsOfFileBucket g 536854528 [] ;;
      Ok (bucket, length (indexInFile g)))
     = Ok ([edge_A'; edge_B'; edge_A'], 4172%nat)
  /\ (entries <- add_edges [edge_A; edge_B] ;;
      g <- built_grid entries ;;
      bucket <- GetContentsOfFileBucket g 536854528 [] ;;
      Ok (bucket, length (indexInFile g)))
     = Ok ([edge_A'; edge_B'], 4148%nat)
  /\ (entries <- add_edges [edge_A; edge_A] ;;
      g <- built_grid entries ;;
      bucket <- GetContentsOfFileBucket g 536854528 [] ;;
      Ok (bucket, length (indexInFile g)))
     = Ok ([edge_A'], 4124%nat).
Proof.
  cbv zeta.
  split; [vm_compute; reflexivity |].
  split; [vm_compute; reflexivity |].
  split; vm_compute; reflexivity.
Qed.

(** ** Doubles: scaling by a power of two *)

Module DoubleFacts.

Import Double.

Lemma mul_comm (x y : double) : mul x y = mul y x.
Proof.
  unfold mul. destruct x as [sx | sx | | sx mx ex], y as [sy | sy | | sy my ey];
    cbn [SFmul]; try reflexivity; try (now rewrite xorb_comm).
  now rewrite xorb_comm, Pos.mul_comm, Z.add_comm.
Qed.

Lemma iter_pos_nat {A : Type} (f : A -> A) (p : positive) :
  forall x, iter_pos f p x = Nat.iter (Pos.to_nat p) f x.
Proof.
  induction p as [p IH | p IH |]; intros x; cbn [iter_pos].
  - rewrite !IH, Pos2Nat.inj_xI, <- Nat.iter_add, <- Nat.iter_succ_r.
    f_equal. lia.
  - rewrite !IH, Pos2Nat.inj_xO, <- Nat.iter_add. f_equal. lia.
  - reflexivity.
Qed.

Lemma digits_shr_1 (mrs : shr_record) :
  Zdigits2 (shr_m (shr_1 mrs)) = Z.max 0 (Zdigits2 (shr_m mrs) - 1).
Proof.
  destruct mrs as [m r s]. destruct m as [| p | p]; cbn [shr_1 shr_m Zdigits2].
  - reflexivity.
  - destruct p; cbn [shr_m Zdigits2 digits2_pos]; lia.
  - destruct p; cbn [shr_m Zdigits2 digits2_pos]; lia.
Qed.

Lemma digits_shr_iter (j : nat) (mrs : shr_record) :
  Zdigits2 (shr_m (Nat.iter j shr_1 mrs))
  = Z.max 0 (Zdigits2 (shr_m mrs) - Z.of_nat j).
Proof.
  assert (Hnonneg : forall z, 0 <= Zdigits2 z) by (intros [| p | p]; cbn; lia).
  induction j as [| j IH].
  - cbn [Nat.iter nat_rect]. specialize (Hnonneg (shr_m mrs)). lia.
  - rewrite Nat.iter_succ, digits_shr_1, IH. lia.
Qed.

(** Every finite result of the rounding step has at most 53 significant
    bits and an exponent of at least -1074. *)
Lemma binary_round_aux_finite (sx : bool) (mx ex : Z) (lx : location)
    (s : bool) (m : positive) (e : Z) :
  binary_round_aux prec emax sx mx ex lx = S754_finite s m e ->
  Zpos (digits2_pos m) <= 53 /\ -1074 <= e.
Proof.
  unfold binary_round_aux.
  destruct (shr_fexp prec emax mx ex lx) as [mrs' e'].
  set (z := round_nearest_even (shr_m mrs') (loc_of_shr_record mrs')).
  unfold shr_fexp, shr. cbn [shr_record_of_loc].
  unfold fexp, emin, prec, emax.
  destruct (Z.max (Zdigits2 z + e' - 53) (3 - 1024 - 53) - e') as [| p | p] eqn:Hn.
  - cbn [shr_m]. destruct z as [| mz | mz]; try discriminate.
    destruct (e' <=? 1024 - 53); [| discriminate].
    intros H. inversion H. subst. cbn [Zdigits2] in Hn. lia.
  - rewrite iter_pos_nat.
    pose proof (digits_shr_iter (Pos.to_nat p) (Build_shr_record z false false)) as Hd.
    cbn [shr_m] in Hd. rewrite positive_nat_Z in Hd.
    destruct (shr_m (Nat.iter (Pos.to_nat p) shr_1 (Build_shr_record z false false)))
      as [| mz | mz]; try discriminate.
    destruct (e' + Z.pos p <=? 1024 - 53); [| discriminate].
    intros H. inversion H. subst. cbn [Zdigits2] in Hd. lia.
  - cbn [shr_m]. destruct z as [| mz | mz]; try discriminate.
    destruct (e' <=? 1024 - 53); [| discriminate].
    intros H. inversion H. subst. cbn [Zdigits2] in Hn. lia.
Qed.

Lemma div_finite (x y : double) (s : bool) (m : positive) (e : Z) :
  div x y = S754_finite s m e ->
  Zpos (digits2_pos m) <= 53 /\ -1074 <= e.
Proof.
  unfold div.
  destruct x as [sx | sx | | sx mx ex], y as [sy | sy | | sy my ey];
    cbn [SFdiv]; try discriminate.
  destruct (SFdiv_core_binary prec emax (Z.pos mx) ex (Z.pos my) ey) as [[mz ez] lz].
  apply binary_round_aux_finite.
Qed.

Lemma shl_digits (j : nat) (m : positive) :
  Zpos (digits2_pos (Nat.iter j xO m)) = Zpos (digits2_pos m) + Z.of_nat j.
Proof.
  induction j as [| j IH].
  - cbn [Nat.iter nat_rect]. lia.
  - rewrite Nat.iter_succ. cbn [digits2_pos]. lia.
Qed.

Lemma shl_value (j : nat) (m : positive) :
  Zpos (Nat.iter j xO m) = Zpos m * 2 ^ Z.of_nat j.
Proof.
  induction j as [| j IH].
  - cbn [Nat.iter nat_rect]. change (Z.of_nat 0) with 0. lia.
  - rewrite Nat.iter_succ, Pos2Z.inj_xO, IH, Nat2Z.inj_succ, Z.pow_succ_r by lia.
    lia.
Qed.

Lemma shr_shl (j : nat) (m : positive) :
  forall i,
    Nat.iter j shr_1 (Build_shr_record (Zpos (Nat.iter (j + i) xO m)) false false)
    = Build_shr_record (Zpos (Nat.iter i xO m)) false false.
Proof.
  induction j as [| j IH]; intros i.
  - reflexivity.
  - rewrite Nat.iter_succ. replace (S j + i)%nat with (j + S i)%nat by lia.
    rewrite IH, Nat.iter_succ. reflexivity.
Qed.

(** The product of a double with at most 53 significant bits and [2^k] is
    exact: the mantissa is shifted left by some [a] and the exponent takes
    up the rest. *)
Lemma mul_pow2 (s : bool) (m : positive) (e k : Z) :
  Zpos (digits2_pos m) <= 53 -> -1074 <= e -> 0 <= k -> e + k <= 971 ->
  exists a m',
    mul (S754_finite s m e) (S754_finite false 4503599627370496 (k - 52))
      = S754_finite s m' (e + k - a)
    /\ 0 <= a /\ Zpos m' = Zpos m * 2 ^ a.
Proof.
  intros Hd He Hk Hmax. unfold mul. cbn [SFmul]. rewrite xorb_false_r.
  replace (m * 4503599627370496)%positive with (Nat.iter 52 xO m)
    by (rewrite Pos.mul_comm; reflexivity).
  set (E := e + (k - 52)).
  assert (Hpos : 0 < Zpos (digits2_pos m)) by lia.
  unfold binary_round_aux, shr_fexp. cbn [shr_record_of_loc Zdigits2].
  rewrite shl_digits. unfold fexp, emin, prec, emax.
  change (Z.of_nat 52) with 52.
  set (n := Z.max (Z.pos (digits2_pos m) + 52 + E - 53) (3 - 1024 - 53) - E).
  assert (Hn : 0 <= n <= 52) by (subst n E; lia).
  unfold shr at 1. destruct n as [| p | p] eqn:Hnp; [| | lia].
  - cbn [shr_m loc_of_shr_record round_nearest_even Zdigits2].
    rewrite shl_digits. change (Z.of_nat 52) with 52. fold n. rewrite Hnp.
    cbn [shr shr_m].
    replace (E <=? 1024 - 53) with true by (symmetry; apply Z.leb_le; subst E; lia).
    exists 52, (Nat.iter 52 xO m). split; [f_equal; subst E; lia |].
    split; [lia |]. apply (shl_value 52).
  - rewrite iter_pos_nat.
    assert (Hshift :
      Nat.iter (Pos.to_nat p) shr_1
        (Build_shr_record (Zpos (Nat.iter 52 xO m)) false false)
      = Build_shr_record (Zpos (Nat.iter (52 - Pos.to_nat p) xO m)) false false).
    { pose proof (shr_shl (Pos.to_nat p) m (52 - Pos.to_nat p)) as Hs.
      replace (Pos.to_nat p + (52 - Pos.to_nat p))%nat with 52%nat in Hs by lia.
      exact Hs. }
    rewrite Hshift.
    cbn [shr_m loc_of_shr_record round_nearest_even Zdigits2].
    rewrite shl_digits.
    match goal with
    | |- context [shr _ _ ?n2] => replace n2 with 0 by (subst n; lia)
    end.
    cbn [shr shr_m].
    replace (E + Z.pos p <=? 1024 - 53) with true
      by (symmetry; apply Z.leb_le; subst n E; lia).
    exists (52 - Z.pos p), (Nat.iter (52 - Pos.to_nat p) xO m).
    split; [f_equal; subst E; lia |]. split; [lia |].
    rewrite shl_value. f_equal. f_equal. lia.
Qed.

(** Truncation of such a product when the scaled value is not an integer
    multiple of a power of two: the mantissa divided by [2^-(e+k)]. *)
Lemma trunc_mul_pow2 (m : positive) (e k : Z) :
  Zpos (digits2_pos m) <= 53 -> -1074 <= e -> 0 <= k -> e + k < 0 ->
  trunc (mul (S754_finite false m e)
             (S754_finite false 4503599627370496 (k - 52)))
  = Some (Zpos m / 2 ^ (- (e + k))).
Proof.
  intros Hd He Hk Hneg.
  destruct (mul_pow2 false m e k Hd He Hk) as [a [m' [Hmul [Ha Hm']]]]; [lia |].
  rewrite Hmul. cbn [trunc cond_Zopp]. rewrite Hm'.
  replace (0 <=? e + k - a) with false by (symmetry; apply Z.leb_gt; lia).
  f_equal.
  replace (- (e + k - a)) with (a + - (e + k)) by lia.
  rewrite Z.pow_add_r by lia.
  rewrite (Z.mul_comm (Z.pos m)).
  apply Z.div_mul_cancel_l; apply Z.pow_nonzero; lia.
Qed.

End DoubleFacts.

(** ** Grid geometry and rasterizer: the cells of the endpoints *)

Lemma leb_one_exponent (m : positive) (e : Z) :
  Double.leb (S754_finite false m e) (Double.of_int 1) = true -> e <= -52.
Proof.
  change (Double.of_int 1) with (S754_finite false 4503599627370496 (-52)).
  unfold Double.leb, SFleb, SFcompare.
  destruct (e ?= -52) eqn:Hcmp; try discriminate; intros _.
  - apply Z.compare_eq in Hcmp. lia.
  - rewrite Z.compare_lt_iff in Hcmp. lia.
Qed.

Lemma leb_zero_sign (s : bool) (m : positive) (e : Z) :
  Double.leb (Double.of_int 0) (S754_finite s m e) = true -> s = false.
Proof.
  change (Double.of_int 0) with (S754_zero false).
  unfold Double.leb, SFleb, SFcompare. destruct s; [discriminate | reflexivity].
Qed.

Lemma to_unsigned_trunc (d : Double.double) (z : Z) :
  Double.to_unsigned d = Ok z -> Double.trunc d = Some z.
Proof.
  unfold Double.to_unsigned. destruct (Double.trunc d) as [t |]; [| discriminate].
  destruct (_ && _); [| discriminate]. intros H. now inversion H.
Qed.

Lemma to_int_trunc (d : Double.double) (z : Z) :
  Double.to_int d = Ok z -> Double.trunc d = Some z.
Proof.
  unfold Double.to_int. destruct (Double.trunc d) as [t |]; [| discriminate].
  destruct (_ && _); [| discriminate]. intros H. now inversion H.
Qed.

(** For a normalised latitude [y] in [[0, 1]], the row base
    [1073741824.0*y] cut to a multiple of 32768 is 32768 times the grid row
    [y*32768] of the rasterizer. *)
Lemma row_base_of_grid_row (a b : Double.double) (line ystart : Z) :
  let y := Double.div a b in
  Double.leb y (Double.of_int 1) = true ->
  Double.leb (Double.of_int 0) y = true ->
  Double.to_unsigned (Double.mul (Double.of_int 1073741824) y) = Ok line ->
  Double.to_int (Double.mul y (Double.of_int 32768)) = Ok ystart ->
  line - line mod 32768 = 32768 * ystart.
Proof.
  intros y Hle1 Hge0 Hline Hrow.
  apply to_unsigned_trunc in Hline. apply to_int_trunc in Hrow.
  rewrite DoubleFacts.mul_comm in Hline.
  change (Double.of_int 1073741824)
    with (S754_finite false 4503599627370496 (30 - 52)) in Hline.
  change (Double.of_int 32768)
    with (S754_finite false 4503599627370496 (15 - 52)) in Hrow.
  destruct y as [s | s | | s m e] eqn:Hy.
  - cbn in Hline, Hrow. inversion Hline. inversion Hrow. reflexivity.
  - destruct s; discriminate.
  - discriminate.
  - apply leb_zero_sign in Hge0. subst s. apply leb_one_exponent in Hle1.
    destruct (DoubleFacts.div_finite a b false m e Hy) as [Hd He].
    rewrite DoubleFacts.trunc_mul_pow2 in Hline, Hrow by lia.
    inversion Hline. inversion Hrow. clear Hline Hrow. subst line ystart.
    set (q := Z.pos m / 2 ^ (- (e + 30))).
    assert (Hq : q / 32768 = Z.pos m / 2 ^ (- (e + 15))).
    { subst q. rewrite Z.div_div by (try apply Z.pow_pos_nonneg; lia).
      f_equal. change 32768 with (2 ^ 15). rewrite <- Z.pow_add_r by lia.
      f_equal. lia. }
    rewrite <- Hq. pose proof (Z.div_mod q 32768). lia.
Qed.

(** The file index of a coordinate is the grid row of the rasterizer times
    32768 plus its grid column. *)
Lemma file_index_of_grid_cell (p : _Coordinate) (f xstart ystart : Z) :
  let lat1 := Double.div (Double.of_int (lat p)) (Double.of_int 100000) in
  let lon1 := Double.div (Double.of_int (lon p)) (Double.of_int 100000) in
  let x1 := Double.div (Double.add lon1 (Double.of_int 180)) (Double.of_int 360) in
  let y1 := Double.div (Double.add lat1 (Double.of_int 90)) (Double.of_int 180) in
  getFileIndexForLatLon (lat p) (lon p) = Ok f ->
  Double.to_int (Double.mul x1 (Double.of_int 32768)) = Ok xstart ->
  Double.to_int (Double.mul y1 (Double.of_int 32768)) = Ok ystart ->
  f = to_unsigned (32768 * ystart + xstart).
Proof.
  intros lat1 lon1 x1 y1 Hf Hx Hy. unfold getFileIndexForLatLon in Hf.
  fold lat1 lon1 in Hf. fold x1 y1 in Hf.
  bind_inv Hf as ux Hax. bind_inv Hf as uy Hay.
  bind_inv Hf as line Hline. bind_inv Hf as ul Hal. bind_inv Hf as column Hcol.
  inversion Hf. clear Hf.
  apply assert_Ok_inv, andb_prop in Hay. destruct Hay as [Hle1 Hge0].
  rewrite (row_base_of_grid_row _ _ line ystart Hle1 Hge0 Hline Hy).
  rewrite DoubleFacts.mul_comm in Hcol.
  apply to_unsigned_trunc in Hcol. apply to_int_trunc in Hx.
  rewrite Hx in Hcol. inversion Hcol.
  unfold to_unsigned. now rewrite Zplus_mod_idemp_l.
Qed.

Lemma cell_index_of_file_index (f xstart ystart : Z) :
  f = to_unsigned (32768 * ystart + xstart) ->
  cell_index (xstart, ystart) = to_unsigned (f - 32768).
Proof.
  intros ->. unfold cell_index, to_unsigned. cbn [fst snd].
  rewrite Zminus_mod_idemp_l. f_equal. lia.
Qed.

(** C7: the cells that [getListOfIndexesForEdgeAndGridSize] returns for an
    edge contain the cell of its start and the cell of its target one row to
    the south: with [fa] and [fb] the file indices of the two endpoints, the
    list contains [fa - 32768] and [fb - 32768] (as [unsigned] values),
    because every emitted file index is [(y-1)*32768 + x] for a grid cell
    [(x, y)]. *)
Theorem rasterizer_covers_endpoint_cells (a b : _Coordinate) (fa fb : Z)
    (indexList : list (Z * Z)) :
  getFileIndexForLatLon (lat a) (lon a) = Ok fa ->
  getFileIndexForLatLon (lat b) (lon b) = Ok fb ->
  getListOfIndexesForEdgeAndGridSize a b [] = Ok indexList ->
  In (to_unsigned (fa - 32768)) (map fst indexList)
  /\ In (to_unsigned (fb - 32768)) (map fst indexList)
  /\ exists cells,
       map fst indexList
       = map (fun p => to_unsigned ((snd p - 1) * 32768 + fst p)) cells.
Proof.
  intros Hfa Hfb Hlist. unfold getListOfIndexesForEdgeAndGridSize in Hlist.
  cbv zeta in Hlist.
  bind_inv Hlist as xstart Hxs. bind_inv Hlist as ystart Hys.
  bind_inv Hlist as xend Hxe. bind_inv Hlist as yend Hye.
  pose proof (bresenham_cells _ _ _ _ _ Hlist) as Hcells.
  apply bresenham_endpoints in Hlist. destruct Hlist as [Hstart Hend].
  rewrite <- (cell_index_of_file_index fa xstart ystart
                (file_index_of_grid_cell a fa xstart ystart Hfa Hxs Hys)).
  rewrite <- (cell_index_of_file_index fb xend yend
                (file_index_of_grid_cell b fb xend yend Hfb Hxe Hye)).
  split; [assumption |]. split; assumption.
Qed.

Lemma rasterizer_covers_endpoint_cells_witness :
  In (to_unsigned (536887296 - 32768))
     (map fst [(536854528, 523776); (536887296, 524800)])
  /\ In (to_unsigned (536920064 - 32768))
        (map fst [(536854528, 523776); (536887296, 524800)])
  /\ exists cells,
       map fst [(536854528, 523776); (536887296, 524800)]
       = map (fun p => to_unsigned ((snd p - 1) * 32768 + fst p)) cells.
Proof.
  apply (rasterizer_covers_endpoint_cells origin (mkCoordinate 1000 1000)
           536887296 536920064); vm_compute; reflexivity.
Defined.

(** ** Index file: bytes written and bytes read *)

Lemma decode_encode_unsigned (v : Z) :
  0 <= v <= UINT_MAX -> decode_unsigned (encode_unsigned v) = v.
Proof.
  unfold UINT_MAX. intros Hv. unfold decode_unsigned, encode_unsigned.
  pose proof (Z.div_mod v 256 ltac:(lia)) as H0.
  pose proof (Z.div_mod (v / 256) 256 ltac:(lia)) as H1.
  pose proof (Z.div_mod (v / 256 / 256) 256 ltac:(lia)) as H2.
  rewrite Z.div_div in H2 by lia. rewrite Z.div_div in H2 by lia.
  change (256 * 256) with 65536 in *. change (65536 * 256) with 16777216 in *.
  rewrite Z.div_div in H1 by lia. change (256 * 256) with 65536 in *.
  assert (H3 : 0 <= v / 16777216 < 256).
  { split; [apply Z.div_pos; lia | apply Z.div_lt_upper_bound; lia]. }
  rewrite (Z.mod_small (v / 16777216)) by lia. lia.
Qed.

Lemma encode_unsigned_length (v : Z) : length (encode_unsigned v) = 4%nat.
Proof. reflexivity. Qed.


Lemma at_offset_app (file : list Z) (pos : Z) (b1 b2 : list Z) :
  at_offset file pos (b1 ++ b2) ->
  at_offset file pos b1 /\ at_offset file (pos + Z.of_nat (length b1)) b2.
Proof.
  intros [pre [post [Hfile Hpos]]]. split.
  - exists pre, (b2 ++ post). now rewrite Hfile, <- app_assoc.
  - exists (pre ++ b1), post. split.
    + now rewrite Hfile, <- !app_assoc.
    + rewrite length_app. lia.
Qed.

Lemma read_unsigned_at (file : list Z) (pos v : Z) :
  0 <= v <= UINT_MAX ->
  at_offset file pos (encode_unsigned v) ->
  read_unsigned file pos = Ok v.
Proof.
  intros Hv [pre [post [Hfile Hpos]]]. unfold read_unsigned.
  rewrite Hfile, <- Hpos, Nat2Z.id, skipn_app, skipn_all, Nat.sub_diag.
  unfold encode_unsigned. cbn [app skipn firstn length Nat.eqb].
  f_equal. apply (decode_encode_unsigned v Hv).
Qed.


Lemma read_directory_step (file : list Z) (pos : Z) (n : nat) :
  read_directory file pos (S n) =
  (v <- read_unsigned file pos ;;
   rest <- read_directory file (pos + 4) n ;;
   Ok (v :: rest)).
Proof. reflexivity. Qed.

Lemma read_directory_at (file : list Z) (directory : list Z) :
  forall pos,
    Forall (fun v => 0 <= v <= UINT_MAX) directory ->
    at_offset file pos (flat_map encode_unsigned directory) ->
    read_directory file pos (length directory) = Ok directory.
Proof.
  induction directory as [| v directory IH]; intros pos Hall Hat.
  - reflexivity.
  - cbn [flat_map] in Hat. apply at_offset_app in Hat. destruct Hat as [Hv Hrest].
    inversion Hall as [| ? ? Hv0 Hall0]. subst.
    cbn [length]. rewrite read_directory_step, (read_unsigned_at file pos v Hv0 Hv).
    cbn [bind]. rewrite encode_unsigned_length in Hrest.
    rewrite (IH (pos + 4) Hall0 Hrest). reflexivity.
Qed.


(** ** Groups of equal keys *)

Section Runs.

Variable key : GridEdgeData -> Z.








End Runs.

(** ** Builder: the child directory of a super-bucket *)












(** ** The map from file cells to child slots *)

Lemma range_In (n : nat) (i : Z) : In i (range n) <-> 0 <= i < Z.of_nat n.
Proof.
  unfold range. rewrite in_map_iff. split.
  - intros [k [<- Hk]]. apply in_seq in Hk. lia.
  - intros Hi. exists (Z.to_nat i). split; [lia |]. apply in_seq. lia.
Qed.

Lemma build_cellMap_In (r f c : Z) :
  In (f, c) (build_cellMap r) ->
  exists i j,
    0 <= i < 32 /\ 0 <= j < 32 /\ c = i * 32 + j
    /\ f = to_unsigned (to_unsigned (r / 1024 * 32 * 32768) + i * 32768
                        + to_unsigned (r mod 1024 * 32) + j).
Proof.
  unfold build_cellMap. rewrite in_flat_map. intros [i [Hi Hin]].
  apply in_map_iff in Hin. destruct Hin as [j [Hpair Hj]].
  apply range_In in Hi. apply range_In in Hj.
  injection Hpair as <- <-. exists i, j. repeat split; lia.
Qed.

Lemma cellMap_find_In (m : cell_map) (k c : Z) :
  cellMap_find m k = Some c -> In (k, c) m.
Proof.
  unfold cellMap_find. destruct (find _ m) as [[k' c'] |] eqn:Hfind; [| discriminate].
  cbn [option_map snd]. intros H. injection H as <-.
  apply find_some in Hfind. destruct Hfind as [Hin Heq].
  cbn [fst] in Heq. apply Z.eqb_eq in Heq. now subst k'.
Qed.


(** Two file cells of a RAM cell do not share a child slot. *)
Lemma cellMap_find_injective (r f f' c : Z) :
  cellMap_find (build_cellMap r) f = Some c ->
  cellMap_find (build_cellMap r) f' = Some c ->
  f = f'.
Proof.
  intros H H'. apply cellMap_find_In, build_cellMap_In in H, H'.
  destruct H as [i [j [Hi [Hj [Hc ->]]]]].
  destruct H' as [i' [j' [Hi' [Hj' [Hc' ->]]]]].
  assert (i = i' /\ j = j') as [-> ->] by lia. reflexivity.
Qed.


(** ** [unique] and the assertions on adjacent entries *)















Section Directory.

Variable std_sort :
  (GridEdgeData -> GridEdgeData -> bool) -> list GridEdgeData -> list GridEdgeData.
Variable stxxl_sort :
  (GridEdgeData -> GridEdgeData -> bool) -> list GridEdgeData -> list GridEdgeData.

Hypothesis std_sort_permutes :
  forall v, Permutation v (std_sort CompareGridEdgeDataByFileIndex v).
Hypothesis std_sort_sorts :
  forall v, StronglySorted (fun a b => fileIndex a <= fileIndex b)
              (std_sort CompareGridEdgeDataByFileIndex v).
Hypothesis stxxl_sort_permutes :
  forall v, Permutation v (stxxl_sort CompareGridEdgeDataByRamIndex v).
Hypothesis stxxl_sort_sorts :
  forall v, StronglySorted (fun a b => ramIndex a <= ramIndex b)
              (stxxl_sort CompareGridEdgeDataByRamIndex v).












End Directory.


